(** * torch/_prims/executor.py: trace executors

    A shallow embedding of [execute] and [make_traced] and the properties
    of the argument canonicalizer, the executor dispatcher and the nvFuser
    lowering executor. *)

From Stdlib Require Import ZArith List String Bool Lia.
From Stdlib Require Import Floats.SpecFloat.
From stdpp Require Import base gmap strings list.
Import ListNotations.
Local Open Scope string_scope.
Local Open Scope list_scope.
Set Warnings "-register-all".

(** ** Python values *)

(** Modelled from the spec: [Number] is imported from torch._prims.utils,
    which is not part of this file; the spec calls it a "scalar number".
    Python's numeric scalars are bool, int, float (an IEEE double) and
    complex. *)
Inductive number : Type :=
| NBool (b : bool)
| NInt (z : Z)
| NFloat (f : spec_float)
| NComplex (re im : spec_float).

(** A [torch.Tensor], as far as the executor looks at it: [size()],
    [stride()], [dtype], and the identity of the buffer. *)
Record tensor : Type := mkTensor {
  size : list Z;
  stride : list Z;
  dtype : string;
  buffer : nat
}.

(** The objects that flow through the executor.  [VNvTensor] and
    [VNvScalar] are handles of the fusion definition (what
    [fd.define_tensor], a lowering rule and [fd.define_constant] return);
    tuples, lists and dicts are the containers that [tree_map] and
    [tree_flatten] look into; everything else is a leaf. *)
Inductive value : Type :=
| VTensor (t : tensor)
| VNumber (n : number)
| VNvTensor (h : nat)
| VNvScalar (h : nat)
| VOther (repr : string)
| VTuple (items : list value)
| VList (items : list value)
| VDict (items : list (string * value)).

(** [isinstance(arg, torch.Tensor)] and [isinstance(arg, Number)]. *)
Definition is_Tensor (v : value) : bool :=
  match v with VTensor _ => true | _ => false end.

Definition is_Number (v : value) : bool :=
  match v with VNumber _ => true | _ => false end.

(** ** Python dicts

    A dict keeps its keys in insertion order, and [list(d.values())]
    depends on that order: an association list with unique keys. *)
Module Dict.

Definition t (V : Type) : Type := list (string * V).

Definition keys {V} (d : t V) : list string := map fst d.
Definition values {V} (d : t V) : list V := map snd d.

(** [k in d] *)
Definition mem {V} (k : string) (d : t V) : bool :=
  existsb (String.eqb k) (keys d).

(** [d.get(k)] *)
Fixpoint get {V} (k : string) (d : t V) : option V :=
  match d with
  | [] => None
  | (k', v) :: rest => if String.eqb k k' then Some v else get k rest
  end.

(** [d[k] = v]: an existing key keeps its place, a new one goes last. *)
Fixpoint set {V} (k : string) (v : V) (d : t V) : t V :=
  match d with
  | [] => [(k, v)]
  | (k', v') :: rest =>
      if String.eqb k k' then (k', v) :: rest
      else (k', v') :: set k v rest
  end.

(** [dict(pairs)] *)
Definition of_pairs {V} (pairs : list (string * V)) : t V :=
  fold_left (fun d kv => set (fst kv) (snd kv) d) pairs [].

End Dict.

(** ** make_traced: the argument canonicalizer *)

(** One entry of [inspect.signature(fn_unwrapped).parameters]:
    [p_default = None] stands for [param.empty]. *)
Record param : Type := mkParam {
  p_name : string;
  p_default : option value
}.

(** Lines 113-115: [fn_kwargs = {}; for k, v in kwargs.items(): fn_kwargs[k] = v]. *)
Definition copy_kwargs (kwargs : Dict.t value) : Dict.t value :=
  fold_left (fun d kv => Dict.set (fst kv) (snd kv) d) kwargs [].

(** Lines 124-128: the loop over [enumerate(sig.parameters.items())],
    started at index [i]. *)
Fixpoint populate_defaults (nargs i : nat) (params : list param)
    (fn_kwargs : Dict.t value) : Dict.t value :=
  match params with
  | [] => fn_kwargs
  | p :: rest =>
      if (i <? nargs)%nat then populate_defaults nargs (S i) rest fn_kwargs
      else
        match p_default p with
        | Some d =>
            if negb (Dict.mem (p_name p) fn_kwargs)
            then populate_defaults nargs (S i) rest (Dict.set (p_name p) d fn_kwargs)
            else populate_defaults nargs (S i) rest fn_kwargs
        | None => populate_defaults nargs (S i) rest fn_kwargs
        end
  end.

(** What [_traced] has computed when it reaches line 131. *)
Record canonical : Type := mkCanonical {
  nargs : nat;
  fn_kwargs : Dict.t value;
  all_args : list value
}.

Definition _traced (sig : list param) (args : list value)
    (kwargs : Dict.t value) : canonical :=
  let nargs := length args in
  let fn_kwargs := populate_defaults nargs 0 sig (copy_kwargs kwargs) in
  let flat_fn_kwargs := Dict.values fn_kwargs in
  {| nargs := nargs; fn_kwargs := fn_kwargs; all_args := args ++ flat_fn_kwargs |}.

(** Lines 134-138: the call [fn( *fn_args, **kwargs)] that [wrapped] makes
    on the flat sequence [args]. *)
Definition wrapped (c : canonical) (args : list value)
    : list value * Dict.t value :=
  let fn_args := firstn (nargs c) args in
  let kwargs_keys := Dict.keys (fn_kwargs c) in
  let kwargs := Dict.of_pairs (combine kwargs_keys (skipn (nargs c) args)) in
  (fn_args, kwargs).

(** ** The world the executor acts on *)

(** The operation target of a graph node; [impl_nvfuser] is the attribute
    that line 48 reads, [None] when the target does not have it. *)
Record target : Type := mkTarget {
  t_name : string;
  impl_nvfuser : option string
}.

(** Every call that [execute] makes on an external collaborator, in the
    order it is made. *)
Inductive event : Type :=
| EvForward (args : list value) (kwargs : Dict.t value)
| EvFusion
| EvEnter
| EvExit
| EvDefineTensor (h : nat) (size stride : list Z) (dtype : string)
| EvDefineConstant (h : nat) (n : number)
| EvAddInput (x : value)
| EvAddOutput (o : value)
| EvLower (h : nat) (rule : string) (args : list value) (kwargs : Dict.t value)
| EvExecute (inputs : list value).

Record world : Type := mkWorld {
  next_handle : nat;
  trace : list event
}.

Inductive exn : Type :=
| ValueError (msg : string)
| RuntimeError (msg : string)
| TypeError (msg : string)
| KeyError (key : string)
| AttributeError (obj : string) (name : string)
| LoweringError (leaf : value).

(** A Python computation: it changes the world and returns or raises. *)
Definition Py (A : Type) : Type := world -> (exn + A) * world.

#[export] Instance Py_ret : MRet Py := fun A (a : A) w => (inr a, w).

#[export] Instance Py_bind : MBind Py := fun A B (f : A -> Py B) (m : Py A) w =>
  match m w with
  | (inr a, w') => f a w'
  | (inl e, w') => (inl e, w')
  end.

Definition raise {A} (e : exn) : Py A := fun w => (inl e, w).

Definition lift {A} (r : exn + A) : Py A := fun w => (r, w).

Definition emit (e : event) : Py unit := fun w =>
  (inr tt, {| next_handle := next_handle w; trace := trace w ++ [e] |}).

Definition fresh : Py nat := fun w =>
  (inr (next_handle w), {| next_handle := S (next_handle w); trace := trace w |}).

(** [for x in l: f(x)] *)
Fixpoint for_each {A} (f : A -> Py unit) (l : list A) : Py unit :=
  match l with
  | [] => mret tt
  | x :: rest => _ ← f x; for_each f rest
  end.

(** [map(f, l)] for an [f] with effects, left to right. *)
Fixpoint map_py {A B} (f : A -> Py B) (l : list A) : Py (list B) :=
  match l with
  | [] => mret []
  | x :: rest => y ← f x; ys ← map_py f rest; mret (y :: ys)
  end.

(** ** Nested structures (torch.utils._pytree)

    Modelled from the spec: [tree_map], [tree_flatten] and [tree_unflatten]
    come from torch.utils._pytree, which is not part of this file.  The spec
    gives their surface, [flatten(tree) -> (leaves, spec)] and
    [unflatten(leaves, spec) -> tree], over tuple, list and mapping nesting,
    leaves in left-to-right order. *)
Inductive treespec : Type :=
| LeafSpec
| TupleSpec (children : list treespec)
| ListSpec (children : list treespec)
| DictSpec (children : list (string * treespec)).

Fixpoint tree_leaves (v : value) : list value :=
  match v with
  | VTuple items => flat_map tree_leaves items
  | VList items => flat_map tree_leaves items
  | VDict items => flat_map (fun kv => tree_leaves (snd kv)) items
  | leaf => [leaf]
  end.

Fixpoint tree_structure (v : value) : treespec :=
  match v with
  | VTuple items => TupleSpec (map tree_structure items)
  | VList items => ListSpec (map tree_structure items)
  | VDict items => DictSpec (map (fun kv => (fst kv, tree_structure (snd kv))) items)
  | _ => LeafSpec
  end.

Definition tree_flatten (v : value) : list value * treespec :=
  (tree_leaves v, tree_structure v).

(** [tree_map(f, v)]: [f] on every leaf, left to right, the nesting kept. *)
Fixpoint tree_map (f : value -> Py value) (v : value) : Py value :=
  match v with
  | VTuple items => items' ← map_py (tree_map f) items; mret (VTuple items')
  | VList items => items' ← map_py (tree_map f) items; mret (VList items')
  | VDict items =>
      items' ← map_py (fun kv => x ← tree_map f (snd kv); mret (fst kv, x)) items;
      mret (VDict items')
  | leaf => f leaf
  end.

(** Rebuilds one subtree from the front of [leaves]; the rest is returned. *)
Fixpoint unflatten_from (spec : treespec) (leaves : list value)
    : option (value * list value) :=
  match spec with
  | LeafSpec =>
      match leaves with
      | [] => None
      | x :: rest => Some (x, rest)
      end
  | TupleSpec children =>
      match (fix go (cs : list treespec) (ls : list value) :=
               match cs with
               | [] => Some ([], ls)
               | c :: cs' =>
                   match unflatten_from c ls with
                   | Some (x, ls') =>
                       match go cs' ls' with
                       | Some (xs, ls'') => Some (x :: xs, ls'')
                       | None => None
                       end
                   | None => None
                   end
               end) children leaves with
      | Some (xs, rest) => Some (VTuple xs, rest)
      | None => None
      end
  | ListSpec children =>
      match (fix go (cs : list treespec) (ls : list value) :=
               match cs with
               | [] => Some ([], ls)
               | c :: cs' =>
                   match unflatten_from c ls with
                   | Some (x, ls') =>
                       match go cs' ls' with
                       | Some (xs, ls'') => Some (x :: xs, ls'')
                       | None => None
                       end
                   | None => None
                   end
               end) children leaves with
      | Some (xs, rest) => Some (VList xs, rest)
      | None => None
      end
  | DictSpec children =>
      match (fix go (cs : list (string * treespec)) (ls : list value) :=
               match cs with
               | [] => Some ([], ls)
               | (k, c) :: cs' =>
                   match unflatten_from c ls with
                   | Some (x, ls') =>
                       match go cs' ls' with
                       | Some (xs, ls'') => Some ((k, x) :: xs, ls'')
                       | None => None
                       end
                   | None => None
                   end
               end) children leaves with
      | Some (xs, rest) => Some (VDict xs, rest)
      | None => None
      end
  end.

Definition tree_unflatten (leaves : list value) (spec : treespec) : exn + value :=
  match unflatten_from spec leaves with
  | Some (v, []) => inr v
  | _ => inl (ValueError "tree_unflatten(values, spec): values do not match the spec")
  end.

(** ** The operation graph (torch.fx)

    Modelled from the spec: [GraphModule] and [torch.fx.Interpreter] are not
    part of this file.  The spec's Operation Graph is "an ordered sequence of
    nodes plus a declared set of input placeholders and a (possibly nested)
    output structure"; an argument of a node names a graph input or an
    earlier node, or is a literal. *)
Inductive argument : Type :=
| ARef (node : string)
| ALit (v : value)
| ATuple (items : list argument)
| AList (items : list argument)
| ADict (items : list (string * argument)).

Record Node : Type := mkNode {
  n_name : string;
  n_target : target;
  n_args : list argument;
  n_kwargs : Dict.t argument
}.

Record GraphModule : Type := mkGraphModule {
  placeholders : list string;
  nodes : list Node;
  output : argument
}.

(** The interpreter's environment: the result of every node run so far,
    keyed by node. *)
Abbreviation environment := (gmap string value).

Fixpoint all_or_error {A} (l : list (exn + A)) : exn + list A :=
  match l with
  | [] => inr []
  | inl e :: _ => inl e
  | inr x :: rest =>
      match all_or_error rest with
      | inr xs => inr (x :: xs)
      | inl e => inl e
      end
  end.

(** An argument with its node references replaced by their results. *)
Fixpoint fetch (env : environment) (a : argument) : exn + value :=
  match a with
  | ARef n =>
      match env !! n with
      | Some v => inr v
      | None => inl (KeyError n)
      end
  | ALit v => inr v
  | ATuple items =>
      match all_or_error (map (fetch env) items) with
      | inr xs => inr (VTuple xs)
      | inl e => inl e
      end
  | AList items =>
      match all_or_error (map (fetch env) items) with
      | inr xs => inr (VList xs)
      | inl e => inl e
      end
  | ADict items =>
      match all_or_error (map (fun kv =>
               match fetch env (snd kv) with
               | inr x => inr (fst kv, x)
               | inl e => inl e
               end) items) with
      | inr xs => inr (VDict xs)
      | inl e => inl e
      end
  end.

(** Graph inputs take the positional arguments left to right. *)
Fixpoint bind_placeholders (names : list string) (args : list value)
    (env : environment) : exn + environment :=
  match names with
  | [] => inr env
  | n :: names' =>
      match args with
      | [] => inl (RuntimeError ("Expected positional argument for parameter "
                                   ++ n ++ ", but one was not passed in!")%string)
      | a :: args' => bind_placeholders names' args' (<[n := a]> env)
      end
  end.

(** ** The fusion backend (torch._C._nvfuser)

    Modelled from the spec: [Fusion] and [FusionDefinition] are not part of
    this file.  The spec's surface is [define_tensor(shape, stride, dtype)],
    [define_constant(value)], [add_input(handle)], [add_output(handle)] and
    [execute(tensor_inputs) -> tensor_outputs]; a lowering rule is
    [op_lowering(context, *lowered_args, **kwargs) -> handle].  Of
    [add_output] the spec says: "register each tensor leaf as a backend
    output (non-tensor leaves are not valid fusion outputs and indicate an
    unsupported graph - fails with LoweringError)". *)
Module fd.

Definition define_tensor (size stride : list Z) (dtype : string) : Py value :=
  h ← fresh; _ ← emit (EvDefineTensor h size stride dtype); mret (VNvTensor h).

Definition define_constant (n : number) : Py value :=
  h ← fresh; _ ← emit (EvDefineConstant h n); mret (VNvScalar h).

Definition add_input (x : value) : Py unit := emit (EvAddInput x).

Definition is_tensor_leaf (o : value) : bool :=
  match o with
  | VTensor _ | VNvTensor _ => true
  | _ => false
  end.

Definition add_output (o : value) : Py unit :=
  if is_tensor_leaf o then emit (EvAddOutput o) else raise (LoweringError o).

(** [rule(fd, *args, **kwargs)] *)
Definition lower (rule : string) (args : list value) (kwargs : Dict.t value)
    : Py value :=
  h ← fresh; _ ← emit (EvLower h rule args kwargs); mret (VNvTensor h).

End fd.

(** ** execute *)

Section Executor.

(** [torch.cuda.is_available()] *)
Variable cuda_is_available : bool.

(** [getnvFuserDtype] of torch._prims.utils: the backend's name of a
    torch dtype. *)
Variable getnvFuserDtype : string -> string.

(** [gm.forward( *args, **kwargs)]: the graph's own evaluation. *)
Variable forward : GraphModule -> list value -> Dict.t value -> exn + value.

(** What the compiled program of a definition returns on given input
    buffers. *)
Variable compiled : list event -> list value -> exn + list value.

(** [fusion.execute(inputs)] *)
Definition fusion_execute (inputs : list value) : Py (list value) :=
  fun w =>
    (compiled (trace w) inputs,
     {| next_handle := next_handle w; trace := trace w ++ [EvExecute inputs] |}).

(** Lines 39-43. *)
Definition _to_nvfuser_constant (arg : value) : Py value :=
  match arg with
  | VNumber n => fd.define_constant n
  | _ => mret arg
  end.

(** Lines 46-50: [FusionInterpreter.call_function]. *)
Definition call_function (target : target) (args : list value)
    (kwargs : Dict.t value) : Py value :=
  args ← map_py _to_nvfuser_constant args;
  match impl_nvfuser target with
  | None => raise (AttributeError (t_name target) "impl_nvfuser")
  | Some rule => fd.lower rule args kwargs
  end.

(** Lines 52-60. *)
Definition to_nv (arg : value) : Py value :=
  match arg with
  | VTensor t =>
      x ← fd.define_tensor (size t) (stride t) (getnvFuserDtype (dtype t));
      _ ← fd.add_input x;
      mret x
  | _ => mret arg
  end.

(** One node of the graph: its arguments are looked up in the
    environment, [call_function] is run on them, and the result is
    stored under the node. *)
Definition run_node (env : environment) (n : Node) : Py environment :=
  args ← lift (all_or_error (map (fetch env) (n_args n)));
  kwargs ← lift (all_or_error (map (fun kv =>
               match fetch env (snd kv) with
               | inr x => inr (fst kv, x)
               | inl e => inl e
               end) (n_kwargs n)));
  r ← call_function (n_target n) args kwargs;
  mret (<[n_name n := r]> env).

Fixpoint run_nodes (env : environment) (ns : list Node) : Py environment :=
  match ns with
  | [] => mret env
  | n :: rest => env' ← run_node env n; run_nodes env' rest
  end.

(** [FusionInterpreter(gm).run( *args, **kwargs)]: the graph inputs are
    positional, [run] declares no keyword parameter for them, so Python
    refuses a keyword argument; the nodes run in recorded order and the
    result is the graph's output structure. *)
Definition run (gm : GraphModule) (args : list value) (kwargs : Dict.t value)
    : Py value :=
  match kwargs with
  | (k, _) :: _ =>
      raise (TypeError ("run() got an unexpected keyword argument '" ++ k ++ "'")%string)
  | [] =>
      env ← lift (bind_placeholders (placeholders gm) args ∅);
      env ← run_nodes env (nodes gm);
      lift (fetch env (output gm))
  end.

(** Lines 64-66: the arguments registered and the graph lowered. *)
Definition lower_graph (gm : GraphModule) (args : list value)
    (kwargs : Dict.t value) : Py value :=
  nv_args ← map_py (tree_map to_nv) args;
  nv_kwargs ← map_py (fun kv => x ← tree_map to_nv (snd kv); mret (fst kv, x)) kwargs;
  run gm nv_args nv_kwargs.

(** Lines 64-69: the whole definition of the fusion; the result is
    [unflatten_spec]. *)
Definition define_fusion (gm : GraphModule) (args : list value)
    (kwargs : Dict.t value) : Py treespec :=
  out ← lower_graph gm args kwargs;
  let '(flat_out, unflatten_spec) := tree_flatten out in
  _ ← for_each fd.add_output flat_out;
  mret unflatten_spec.

(** Lines 64-76: the body of the [with] statement. *)
Definition definition_body (gm : GraphModule) (args : list value)
    (kwargs : Dict.t value) : Py value :=
  unflatten_spec ← define_fusion gm args kwargs;
  outs ← fusion_execute (List.filter (fun arg => is_Tensor arg) args);
  lift (tree_unflatten outs unflatten_spec).

(** [with FusionDefinition(fusion) as fd: body]: [__exit__] runs when the
    body returns and when it raises, and the exception goes on. *)
Definition with_FusionDefinition {A} (body : Py A) : Py A := fun w =>
  match emit EvEnter w with
  | (_, w1) =>
      match body w1 with
      | (r, w2) => (r, snd (emit EvExit w2))
      end
  end.

(** Lines 78-80: [msg]. *)
Definition unexpected_executor (executor : string) : string :=
  ("Received unexpected value for 'executor': " ++ executor
     ++ ". Allowed values are: aten, nvfuser.")%string.

(** Lines 18-81. *)
Definition execute (gm : GraphModule) (args : list value) (executor : string)
    (kwargs : Dict.t value) : Py value :=
  if String.eqb executor "aten" then
    _ ← emit (EvForward args kwargs);
    lift (forward gm args kwargs)
  else if String.eqb executor "nvfuser" then
    if negb cuda_is_available then
      raise (RuntimeError
               "Attempting to use nvFuser trace executor but CUDA is not available!")
    else
      _ ← emit EvFusion;
      with_FusionDefinition (definition_body gm args kwargs)
  else
    raise (ValueError (unexpected_executor executor)).

End Executor.

(** ** Stating the claims on the canonicalizer *)

(** The defaults that line 128 adds to a dict [d]: of the parameters [ps],
    those that declare a default and are no key of [d], in declaration
    order. *)
Definition missing_defaults (d : Dict.t value) (ps : list param) : Dict.t value :=
  omap (fun p =>
          match p_default p with
          | Some v => if Dict.mem (p_name p) d then None else Some (p_name p, v)
          | None => None
          end) ps.

(** The claim of the specification, in its words: after the positional
    arguments, one value for each remaining declared parameter, the
    caller's keyword value if supplied, otherwise the declared default. *)
Definition claimed_value (kwargs : Dict.t value) (p : param) : option value :=
  match Dict.get (p_name p) kwargs with
  | Some v => Some v
  | None => p_default p
  end.

Definition claimed_all_args (sig : list param) (args : list value)
    (kwargs : Dict.t value) : option (list value) :=
  match mapM (claimed_value kwargs) (skipn (length args) sig) with
  | Some rest => Some (args ++ rest)
  | None => None
  end.

(** The adapter of the specification, in its words: the keyword parameter
    names in declaration order, zipped with the trailing entries. *)
Definition claimed_wrapped (sig : list param) (c : canonical) (args : list value)
    : list value * Dict.t value :=
  let declared :=
    List.filter (fun name => Dict.mem name (fn_kwargs c))
                (map p_name (skipn (nargs c) sig)) in
  (firstn (nargs c) args, Dict.of_pairs (combine declared (skipn (nargs c) args))).

(** [g(a, c=2.0)] of the specification's scenario, and a function with two
    defaulted parameters. *)
Module Scenario.

Definition two : value := VNumber (NFloat (S754_finite false 4503599627370496 (-51))).

Definition g_sig : list param :=
  [mkParam "a" None; mkParam "c" (Some two)].

Definition h_sig : list param :=
  [mkParam "a" None; mkParam "b" (Some (VNumber (NInt 1))); mkParam "c" (Some two)].

Definition a : value :=
  VTensor (mkTensor [2%Z; 3%Z] [3%Z; 1%Z] "torch.float32" 0).

Definition b : value :=
  VTensor (mkTensor [2%Z; 3%Z] [3%Z; 1%Z] "torch.float32" 1).

End Scenario.


(** ** Reading a trace *)

(** The tensors among the leaves of a value, left to right. *)
Definition tensors_of (v : value) : list tensor :=
  omap (fun x => match x with VTensor t => Some t | _ => None end) (tree_leaves v).

(** The tensors of a call: those of the positional arguments, then those
    of the keyword arguments. *)
Definition call_tensors (args : list value) (kwargs : Dict.t value) : list tensor :=
  flat_map tensors_of args ++ flat_map (fun kv => tensors_of (snd kv)) kwargs.

(** What registering the tensors [ts] as inputs records, the first handle
    being [h]: each is defined with its size, stride and translated dtype
    and added as an input. *)
Fixpoint input_events (getnvFuserDtype : string -> string) (h : nat)
    (ts : list tensor) : list event :=
  match ts with
  | [] => []
  | t :: rest =>
      EvDefineTensor h (size t) (stride t) (getnvFuserDtype (dtype t))
        :: EvAddInput (VNvTensor h)
        :: input_events getnvFuserDtype (S h) rest
  end.

(** What translating the operands [args] of a node records, the first
    handle being [h], and the operands that the lowering rule receives. *)
Fixpoint constant_events (h : nat) (args : list value) : list event :=
  match args with
  | [] => []
  | VNumber n :: rest => EvDefineConstant h n :: constant_events (S h) rest
  | _ :: rest => constant_events h rest
  end.

Fixpoint with_constants (h : nat) (args : list value) : list value :=
  match args with
  | [] => []
  | VNumber n :: rest => VNvScalar h :: with_constants (S h) rest
  | x :: rest => x :: with_constants h rest
  end.

Definition count_numbers (args : list value) : nat :=
  length (List.filter is_Number args).

(** The world after the tensors [ts] have been registered as inputs. *)
Definition registered (getnvFuserDtype : string -> string) (w : world)
    (ts : list tensor) : world :=
  {| next_handle := next_handle w + length ts;
     trace := trace w ++ input_events getnvFuserDtype (next_handle w) ts |}.

Definition is_add_input (e : event) : bool :=
  match e with EvAddInput _ => true | _ => false end.

Definition is_execute (e : event) : bool :=
  match e with EvExecute _ => true | _ => false end.

(** The steps of lines 64-69: what a definition is made of. *)
Definition is_definition_step (e : event) : bool :=
  match e with
  | EvDefineTensor _ _ _ _ | EvAddInput _ | EvDefineConstant _ _
  | EvLower _ _ _ _ | EvAddOutput _ => true
  | _ => false
  end.

(** The steps of line 66: what running the graph records. *)
Definition is_lowering_step (e : event) : bool :=
  match e with
  | EvDefineConstant _ _ | EvLower _ _ _ _ => true
  | _ => false
  end.

Definition is_add_output (e : event) : bool :=
  match e with EvAddOutput _ => true | _ => false end.

(** [m] only adds events to the trace, and only events that satisfy [Q]. *)
Definition emits {A} (Q : event -> bool) (m : Py A) : Prop :=
  forall w, exists evs,
    trace (snd (m w)) = trace w ++ evs /\ forallb Q evs = true.

(** ** Well-scoped graphs *)

(** The nodes an argument refers to. *)
Fixpoint refs (a : argument) : list string :=
  match a with
  | ARef n => [n]
  | ALit _ => []
  | ATuple items => flat_map refs items
  | AList items => flat_map refs items
  | ADict items => flat_map (fun kv => refs (snd kv)) items
  end.

Definition node_refs (n : Node) : list string :=
  flat_map refs (n_args n) ++ flat_map (fun kv => refs (snd kv)) (n_kwargs n).

(** The invariant of the spec's Operation Graph: every reference of a
    node names a graph input or an earlier node. *)
Fixpoint well_scoped (known : list string) (ns : list Node) : Prop :=
  match ns with
  | [] => True
  | n :: rest =>
      (forall r, In r (node_refs n) -> In r known)
      /\ well_scoped (n_name n :: known) rest
  end.

Definition has_rule (n : Node) : Prop := impl_nvfuser (n_target n) <> None.

(** Graphs and collaborators for the scenarios: [g] traced to one
    multiplication, a concatenation of a list of tensors, a graph that also
    returns its scalar input, and a graph with an operation that has no
    nvfuser lowering. *)
Module Graphs.

Definition mul : target := mkTarget "prims.mul" (Some "fd.Ops.mul").
Definition cat : target := mkTarget "prims.cat" (Some "fd.Ops.cat").
Definition erf_inv : target := mkTarget "prims.erf_inv" None.

Definition g : GraphModule :=
  mkGraphModule ["a_1"; "c_1"]
    [mkNode "mul" mul [ARef "a_1"; ARef "c_1"] []]
    (ARef "mul").

Definition concat : GraphModule :=
  mkGraphModule ["xs"] [mkNode "cat" cat [ARef "xs"] []] (ARef "cat").

Definition g_and_scalar : GraphModule :=
  mkGraphModule ["a_1"; "c_1"]
    [mkNode "mul" mul [ARef "a_1"; ARef "c_1"] []]
    (ATuple [ARef "mul"; ARef "c_1"]).

Definition unlowerable : GraphModule :=
  mkGraphModule ["a_1"; "c_1"]
    [mkNode "mul" mul [ARef "a_1"; ARef "c_1"] [];
     mkNode "erf_inv" erf_inv [ARef "mul"] [];
     mkNode "mul_1" mul [ARef "erf_inv"; ARef "mul"] []]
    (ARef "mul_1").

Definition nvfuser_dtype (dtype : string) : string :=
  if String.eqb dtype "torch.float32" then "DataType.Float" else "DataType.Null".

Definition no_forward (gm : GraphModule) (args : list value)
    (kwargs : Dict.t value) : exn + value :=
  inl (RuntimeError "forward is not available").

(** A compiled program that returns one buffer for each output. *)
Definition one_buffer_each (definition : list event) (inputs : list value)
    : exn + list value :=
  inr (flat_map (fun e =>
         match e with
         | EvAddOutput _ => [VTensor (mkTensor [2%Z; 3%Z] [3%Z; 1%Z] "torch.float32" 9)]
         | _ => []
         end) definition).

Definition start : world := {| next_handle := 0; trace := [] |}.

End Graphs.

(** ** Nested induction on values and arguments *)

Section NestedInduction.

Variable P : value -> Prop.
Hypothesis Htensor : forall t, P (VTensor t).
Hypothesis Hnumber : forall n, P (VNumber n).
Hypothesis Hnvtensor : forall h, P (VNvTensor h).
Hypothesis Hnvscalar : forall h, P (VNvScalar h).
Hypothesis Hother : forall s, P (VOther s).
Hypothesis Htuple : forall items, Forall P items -> P (VTuple items).
Hypothesis Hlist : forall items, Forall P items -> P (VList items).
Hypothesis Hdict : forall items, Forall (fun kv => P (snd kv)) items -> P (VDict items).

Fixpoint value_nested_ind (v : value) : P v :=
  match v with
  | VTensor t => Htensor t
  | VNumber n => Hnumber n
  | VNvTensor h => Hnvtensor h
  | VNvScalar h => Hnvscalar h
  | VOther s => Hother s
  | VTuple items =>
      Htuple items
        ((fix go (l : list value) : Forall P l :=
            match l with
            | [] => List.Forall_nil P
            | x :: rest => List.Forall_cons P x rest (value_nested_ind x) (go rest)
            end) items)
  | VList items =>
      Hlist items
        ((fix go (l : list value) : Forall P l :=
            match l with
            | [] => List.Forall_nil P
            | x :: rest => List.Forall_cons P x rest (value_nested_ind x) (go rest)
            end) items)
  | VDict items =>
      Hdict items
        ((fix go (l : list (string * value)) : Forall (fun kv => P (snd kv)) l :=
            match l with
            | [] => List.Forall_nil _
            | kv :: rest =>
                List.Forall_cons (fun kv => P (snd kv)) kv rest
                  (value_nested_ind (snd kv)) (go rest)
            end) items)
  end.

End NestedInduction.

Section ArgumentInduction.

Variable P : argument -> Prop.
Hypothesis Href : forall n, P (ARef n).
Hypothesis Hlit : forall v, P (ALit v).
Hypothesis Htuple : forall items, Forall P items -> P (ATuple items).
Hypothesis Hlist : forall items, Forall P items -> P (AList items).
Hypothesis Hdict : forall items, Forall (fun kv => P (snd kv)) items -> P (ADict items).

Fixpoint argument_nested_ind (a : argument) : P a :=
  match a with
  | ARef n => Href n
  | ALit v => Hlit v
  | ATuple items =>
      Htuple items
        ((fix go (l : list argument) : Forall P l :=
            match l with
            | [] => List.Forall_nil P
            | x :: rest => List.Forall_cons P x rest (argument_nested_ind x) (go rest)
            end) items)
  | AList items =>
      Hlist items
        ((fix go (l : list argument) : Forall P l :=
            match l with
            | [] => List.Forall_nil P
            | x :: rest => List.Forall_cons P x rest (argument_nested_ind x) (go rest)
            end) items)
  | ADict items =>
      Hdict items
        ((fix go (l : list (string * argument)) : Forall (fun kv => P (snd kv)) l :=
            match l with
            | [] => List.Forall_nil _
            | kv :: rest =>
                List.Forall_cons (fun kv => P (snd kv)) kv rest
                  (argument_nested_ind (snd kv)) (go rest)
            end) items)
  end.

End ArgumentInduction.

(** ** The whole of _traced *)

Section MakeTraced.

Variable cuda_is_available : bool.
Variable getnvFuserDtype : string -> string.
Variable forward : GraphModule -> list value -> Dict.t value -> exn + value.
Variable compiled : list event -> list value -> exn + list value.

(** [make_fx(wrapped)( *all_args)] under [TorchRefsMode.push()]: the graph
    recorded while [wrapped] runs [fn] on the flat arguments, or the
    exception of the tracing.  [make_fx], the mode and the body of [fn] are
    not part of this file; the adapter is what [wrapped] does before it
    calls [fn]. *)
Variable make_fx :
  (list value -> list value * Dict.t value) -> list value -> exn + GraphModule.

(** Lines 110-142: [make_traced(fn)( *args, executor=executor, **kwargs)],
    [sig] being the signature of [fn]. *)
Definition make_traced (sig : list param) (args : list value)
    (executor : string) (kwargs : Dict.t value) : Py value :=
  let c := _traced sig args kwargs in
  gm ← lift (make_fx (wrapped c) (all_args c));
  execute cuda_is_available getnvFuserDtype forward compiled
          gm (all_args c) executor [].

End MakeTraced.

(** ** Stating further properties *)

(** The declared default of the parameter named [k] among [ps]. *)
Fixpoint default_of (k : string) (ps : list param) : option value :=
  match ps with
  | [] => None
  | p :: rest => if String.eqb k (p_name p) then p_default p else default_of k rest
  end.

(** The leaves that [to_nv] makes of [leaves], the first handle being [h]:
    every tensor is replaced by the handle defined for it. *)
Fixpoint with_inputs (h : nat) (leaves : list value) : list value :=
  match leaves with
  | [] => []
  | VTensor _ :: rest => VNvTensor h :: with_inputs (S h) rest
  | x :: rest => x :: with_inputs h rest
  end.

(** What [tree_map(to_nv, v)] returns, with what it registers. *)
Definition nv_result (getnvFuserDtype : string -> string) (v : value) : Prop :=
  forall w, exists v',
    tree_map (to_nv getnvFuserDtype) v w
    = (inr v', registered getnvFuserDtype w (tensors_of v))
    /\ tree_structure v' = tree_structure v
    /\ tree_leaves v' = with_inputs (next_handle w) (tree_leaves v).

Definition is_define_constant (e : event) : bool :=
  match e with EvDefineConstant _ _ => true | _ => false end.

(** The loops inside [unflatten_from], by name. *)
Fixpoint unflatten_list (cs : list treespec) (ls : list value)
    : option (list value * list value) :=
  match cs with
  | [] => Some ([], ls)
  | c :: cs' =>
      match unflatten_from c ls with
      | Some (x, ls') =>
          match unflatten_list cs' ls' with
          | Some (xs, ls'') => Some (x :: xs, ls'')
          | None => None
          end
      | None => None
      end
  end.

Fixpoint unflatten_items (cs : list (string * treespec)) (ls : list value)
    : option (list (string * value) * list value) :=
  match cs with
  | [] => Some ([], ls)
  | (k, c) :: cs' =>
      match unflatten_from c ls with
      | Some (x, ls') =>
          match unflatten_items cs' ls' with
          | Some (xs, ls'') => Some ((k, x) :: xs, ls'')
          | None => None
          end
      | None => None
      end
  end.

(** Tracers for the scenarios: one that records [g], one that fails. *)
Module Tracers.

Definition records_g (adapter : list value -> list value * Dict.t value)
    (flat : list value) : exn + GraphModule :=
  inr Graphs.g.

Definition fails (adapter : list value -> list value * Dict.t value)
    (flat : list value) : exn + GraphModule :=
  inl (RuntimeError "no reference for this operation").

(** A function of two tensors without defaults, [f(a, b)]. *)
Definition f_sig : list param := [mkParam "a" None; mkParam "b" None].

End Tracers.

(** Rebuilding a tree of the structure of [v] from the leaves [ls]. *)
Definition rebuilds (v : value) : Prop :=
  forall ls rest,
    length ls = length (tree_leaves v) -> forallb is_Tensor ls = true ->
    exists v',
      unflatten_from (tree_structure v) (ls ++ rest) = Some (v', rest)
      /\ tree_structure v' = tree_structure v /\ tree_leaves v' = ls.

(** Graphs for further scenarios: a variance whose correction is taken by
    keyword from the second input, and a graph with a nested output. *)
Module MoreGraphs.

Definition var : target := mkTarget "prims.var" (Some "fd.Ops.var").

Definition var_correction : GraphModule :=
  mkGraphModule ["a_1"; "c_1"]
    [mkNode "var" var [ARef "a_1"] [("correction", ARef "c_1")]]
    (ARef "var").

Definition nested_output : GraphModule :=
  mkGraphModule ["a_1"; "c_1"]
    [mkNode "mul" Graphs.mul [ARef "a_1"; ARef "c_1"] []]
    (ATuple [ARef "mul"; AList [ARef "a_1"]]).

End MoreGraphs.

(** * Properties *)

(** ** Dicts *)

Section DictFacts.
Context {V : Type}.
Implicit Types (d : Dict.t V) (k : string) (v : V).

Lemma mem_true_iff k d : Dict.mem k d = true <-> In k (Dict.keys d).
Proof.
  unfold Dict.mem. rewrite existsb_exists. split.
  - intros (x & Hx & E). apply String.eqb_eq in E. now subst.
  - intros H. exists k. split; [exact H | apply String.eqb_refl].
Qed.

Lemma mem_false_iff k d : Dict.mem k d = false <-> ~ In k (Dict.keys d).
Proof.
  rewrite <- mem_true_iff. destruct (Dict.mem k d); split; congruence.
Qed.

Lemma set_absent k v d : ~ In k (Dict.keys d) -> Dict.set k v d = d ++ [(k, v)].
Proof.
  induction d as [|[k' v'] d IH]; simpl; intros H; [reflexivity|].
  destruct (String.eqb_spec k k') as [->|_].
  - exfalso. apply H. now left.
  - f_equal. apply IH. intros ?. apply H. now right.
Qed.

Lemma keys_set_present k v d :
  In k (Dict.keys d) -> Dict.keys (Dict.set k v d) = Dict.keys d.
Proof.
  induction d as [|[k' v'] d IH]; simpl; intros H; [contradiction|].
  destruct (String.eqb_spec k k') as [->|Hne]; simpl; [reflexivity|].
  f_equal. apply IH. destruct H as [H|H]; [congruence | exact H].
Qed.

Lemma NoDup_keys_set k v d :
  NoDup (Dict.keys d) -> NoDup (Dict.keys (Dict.set k v d)).
Proof.
  intros H. destruct (in_dec string_dec k (Dict.keys d)) as [Hin|Hout].
  - now rewrite keys_set_present.
  - rewrite set_absent by exact Hout. unfold Dict.keys. rewrite map_app. simpl.
    apply NoDup_app. split; [exact H|]. split.
    + intros x Hx Hx'. apply list_elem_of_In in Hx.
      apply list_elem_of_In in Hx'. destruct Hx' as [<-|[]]. now apply Hout.
    + apply NoDup_singleton.
Qed.

(** Filling a dict from pairs with distinct new keys appends them. *)
Lemma fold_set_distinct (l : list (string * V)) d :
  NoDup (Dict.keys d ++ map fst l) ->
  fold_left (fun d kv => Dict.set (fst kv) (snd kv) d) l d = d ++ l.
Proof.
  revert d. induction l as [|[k v] l IH]; intros d H; simpl.
  - now rewrite app_nil_r.
  - simpl in H. rewrite set_absent.
    + rewrite IH.
      * now rewrite <- app_assoc.
      * unfold Dict.keys. rewrite map_app. simpl. rewrite <- app_assoc. exact H.
    + apply NoDup_app in H. destruct H as (_ & H & _).
      intros Hin. apply (H k); [now apply list_elem_of_In | left].
Qed.

Lemma of_pairs_distinct (l : list (string * V)) :
  NoDup (map fst l) -> Dict.of_pairs l = l.
Proof. intros H. unfold Dict.of_pairs. now rewrite fold_set_distinct. Qed.

Lemma NoDup_keys_fold_set (l : list (string * V)) d :
  NoDup (Dict.keys d) ->
  NoDup (Dict.keys (fold_left (fun d kv => Dict.set (fst kv) (snd kv) d) l d)).
Proof.
  revert d. induction l as [|[k v] l IH]; intros d H; simpl; [exact H|].
  apply IH. now apply NoDup_keys_set.
Qed.

Lemma combine_keys_values d : combine (Dict.keys d) (Dict.values d) = d.
Proof.
  induction d as [|[k v] d IH]; simpl; [reflexivity | now rewrite IH].
Qed.

End DictFacts.

(** ** The canonicalizer *)

Section CanonicalizerFacts.
Implicit Types (d : Dict.t value) (ps sig : list param) (args : list value).

Lemma missing_defaults_app_fresh d k v ps :
  ~ In k (map p_name ps) ->
  missing_defaults (d ++ [(k, v)]) ps = missing_defaults d ps.
Proof.
  induction ps as [|p ps IH]; simpl; intros H; [reflexivity|].
  unfold missing_defaults in *. simpl.
  rewrite IH by (intros ?; apply H; now right).
  destruct (p_default p) as [dv|]; [|reflexivity].
  assert (E : Dict.mem (p_name p) (d ++ [(k, v)]) = Dict.mem (p_name p) d).
  { unfold Dict.mem, Dict.keys. rewrite map_app, existsb_app. simpl.
    destruct (String.eqb_spec (p_name p) k) as [E|_].
    - exfalso. apply H. now left.
    - now rewrite !orb_false_r. }
  now rewrite E.
Qed.

(** The loop of lines 124-128 in closed form. *)
Lemma populate_defaults_closed n ps : forall i d,
  NoDup (map p_name ps) ->
  populate_defaults n i ps d = d ++ missing_defaults d (skipn (n - i) ps).
Proof.
  induction ps as [|p ps IH]; intros i d Hnd; simpl.
  - rewrite skipn_nil. unfold missing_defaults. simpl. now rewrite app_nil_r.
  - change (map p_name (p :: ps)) with (p_name p :: map p_name ps) in Hnd.
    apply NoDup_cons in Hnd. destruct Hnd as [Hp Hnd].
    rewrite list_elem_of_In in Hp.
    destruct (Nat.ltb_spec i n) as [Hlt|Hge].
    + rewrite IH by exact Hnd.
      replace (n - i) with (S (n - S i)) by lia. reflexivity.
    + replace (n - i) with 0 by lia. simpl.
      assert (E0 : forall q : list param, skipn (n - S i) q = q)
        by (intros q; replace (n - S i) with 0 by lia; reflexivity).
      unfold missing_defaults at 1. simpl. fold (missing_defaults d ps).
      destruct (p_default p) as [dv|] eqn:Hd.
      * destruct (Dict.mem (p_name p) d) eqn:Hm; simpl.
        -- rewrite IH, E0 by exact Hnd. reflexivity.
        -- rewrite IH, E0 by exact Hnd.
           apply mem_false_iff in Hm. rewrite set_absent by exact Hm.
           rewrite missing_defaults_app_fresh by exact Hp.
           now rewrite <- app_assoc.
      * rewrite IH, E0 by exact Hnd. reflexivity.
Qed.

Lemma NoDup_keys_populate n ps : forall i d,
  NoDup (Dict.keys d) -> NoDup (Dict.keys (populate_defaults n i ps d)).
Proof.
  induction ps as [|p ps IH]; intros i d H; simpl; [exact H|].
  destruct (i <? n)%nat; [now apply IH|].
  destruct (p_default p); [|now apply IH].
  destruct (negb (Dict.mem (p_name p) d)); apply IH; [|exact H].
  now apply NoDup_keys_set.
Qed.

Lemma NoDup_keys_fn_kwargs sig args kwargs :
  NoDup (Dict.keys (fn_kwargs (_traced sig args kwargs))).
Proof.
  simpl. apply NoDup_keys_populate. unfold copy_kwargs.
  apply NoDup_keys_fold_set. constructor.
Qed.

Lemma copy_kwargs_distinct (kwargs : Dict.t value) :
  NoDup (Dict.keys kwargs) -> copy_kwargs kwargs = kwargs.
Proof. intros H. unfold copy_kwargs. now rewrite fold_set_distinct. Qed.

(** [fn_kwargs] when line 130 reads it. *)
Lemma fn_kwargs_closed sig args (kwargs : Dict.t value) :
  NoDup (Dict.keys kwargs) -> NoDup (map p_name sig) ->
  fn_kwargs (_traced sig args kwargs)
  = kwargs ++ missing_defaults kwargs (skipn (length args) sig).
Proof.
  intros Hk Hs. simpl. rewrite copy_kwargs_distinct by exact Hk.
  rewrite populate_defaults_closed by exact Hs. now rewrite Nat.sub_0_r.
Qed.

Lemma NoDup_combine_keys (ks : list string) (vs : list value) :
  NoDup ks -> NoDup (map fst (combine ks vs)).
Proof.
  revert vs. induction ks as [|k ks IH]; intros vs H; simpl; [constructor|].
  destruct vs as [|v vs]; simpl; [constructor|].
  apply NoDup_cons in H. destruct H as [Hk H].
  apply NoDup_cons. split; [|now apply IH].
  rewrite list_elem_of_In in Hk |- *.
  intros Hin. apply Hk. clear -Hin. revert vs Hin.
  induction ks as [|k' ks IH]; intros [|v vs] Hin; simpl in *; try contradiction.
  destruct Hin as [->|Hin]; [now left | right; eauto].
Qed.

(** What [wrapped] computes on any flat sequence. *)
Lemma wrapped_closed sig args (kwargs : Dict.t value) (flat : list value) :
  wrapped (_traced sig args kwargs) flat
  = (firstn (length args) flat,
     combine (Dict.keys (fn_kwargs (_traced sig args kwargs)))
             (skipn (length args) flat)).
Proof.
  unfold wrapped. f_equal. apply of_pairs_distinct.
  apply NoDup_combine_keys, NoDup_keys_fn_kwargs.
Qed.

End CanonicalizerFacts.

(** ** Claims on the canonicalizer *)

(** C2, as stated, fails: for [h(a, b=1, c=2.0)] called as [h(a, c=5)] the
    claimed list is [a, 1, 5] (one value per remaining parameter, in their
    order), while line 131 builds [a, 5, 1]. *)
Lemma all_args_not_in_declaration_order :
  Some (all_args (_traced Scenario.h_sig [Scenario.a] [("c", VNumber (NInt 5))]))
  <> claimed_all_args Scenario.h_sig [Scenario.a] [("c", VNumber (NInt 5))].
Proof. vm_compute. discriminate. Qed.

(** C2 (amended): the canonical flat argument list is the caller's
    positional arguments in their original positions, followed by the
    caller's keyword values in the order the caller supplied them, followed
    by the declared default of every remaining declared parameter that
    declares one and was not supplied by keyword, in declaration order; in
    particular [g(a, c=2.0)] called as [g(a)] yields [a, 2.0]. *)
Theorem all_args_positional_keywords_defaults
    (sig : list param) (args : list value) (kwargs : Dict.t value) :
  NoDup (Dict.keys kwargs) -> NoDup (map p_name sig) ->
  all_args (_traced sig args kwargs)
  = args ++ Dict.values kwargs
         ++ Dict.values (missing_defaults kwargs (skipn (length args) sig))
  /\ (forall a : value,
        all_args (_traced Scenario.g_sig [a] []) = [a; Scenario.two]).
Proof.
  intros Hk Hs. split; [|reflexivity].
  change (all_args (_traced sig args kwargs))
    with (args ++ Dict.values (fn_kwargs (_traced sig args kwargs))).
  rewrite fn_kwargs_closed by assumption.
  unfold Dict.values. now rewrite map_app.
Qed.

Lemma all_args_positional_keywords_defaults_witness :
  all_args (_traced Scenario.h_sig [Scenario.a] [("c", VNumber (NInt 5))])
  = [Scenario.a; VNumber (NInt 5); VNumber (NInt 1)].
Proof.
  refine (proj1 (all_args_positional_keywords_defaults
                   Scenario.h_sig [Scenario.a] [("c", VNumber (NInt 5))] _ _)).
  - apply (bool_decide_unpack _). vm_compute. exact I.
  - apply (bool_decide_unpack _). vm_compute. exact I.
Defined.

(** C3, as stated, fails: after [h(a, c=5)] the adapter binds [c] to the
    first trailing entry and [b] to the second, while the keyword parameter
    names in declaration order, [b] then [c], would bind them the other way
    round. *)
Lemma wrapped_not_in_declaration_order :
  let c := _traced Scenario.h_sig [Scenario.a] [("c", VNumber (NInt 5))] in
  let flat := [VOther "x"; VOther "y"; VOther "z"] in
  wrapped c flat <> claimed_wrapped Scenario.h_sig c flat
  /\ Dict.get "c" (snd (wrapped c flat)) = Some (VOther "y")
  /\ Dict.get "c" (snd (claimed_wrapped Scenario.h_sig c flat)) = Some (VOther "z").
Proof. vm_compute. repeat split; discriminate. Qed.

(** C3 (amended): given any flat sequence of the canonical list's arity,
    the adapter splits it into the positional prefix, as long as the
    original positional arguments, and a keyword dictionary that zips the
    keys of the merged keyword mapping in their insertion order (the
    caller's keywords in the order supplied, then the filled-in defaults in
    declaration order) against the trailing entries. *)
Theorem wrapped_rezips_merged_keys
    (sig : list param) (args : list value) (kwargs : Dict.t value)
    (flat : list value) :
  NoDup (Dict.keys kwargs) -> NoDup (map p_name sig) ->
  length flat = length (all_args (_traced sig args kwargs)) ->
  let c := _traced sig args kwargs in
  let keys := Dict.keys kwargs
              ++ Dict.keys (missing_defaults kwargs (skipn (length args) sig)) in
  wrapped c flat = (firstn (length args) flat, combine keys (skipn (length args) flat))
  /\ length (fst (wrapped c flat)) = length args
  /\ Dict.keys (snd (wrapped c flat)) = keys.
Proof.
  intros Hk Hs Hlen c keys.
  assert (Ekeys : Dict.keys (fn_kwargs c) = keys).
  { subst c keys. rewrite fn_kwargs_closed by assumption.
    unfold Dict.keys. now rewrite map_app. }
  assert (Elen : length flat = length args + length keys).
  { rewrite Hlen.
    change (all_args (_traced sig args kwargs))
      with (args ++ Dict.values (fn_kwargs c)).
    rewrite length_app, <- Ekeys. unfold Dict.values, Dict.keys.
    now rewrite !length_map. }
  subst c. rewrite wrapped_closed, Ekeys. cbn [fst snd].
  split; [reflexivity|]. split.
  - rewrite length_take. lia.
  - unfold Dict.keys at 1. apply fst_zip. rewrite length_drop. lia.
Qed.

Lemma wrapped_rezips_merged_keys_witness :
  wrapped (_traced Scenario.h_sig [Scenario.a] [("c", VNumber (NInt 5))])
          [VOther "x"; VOther "y"; VOther "z"]
  = ([VOther "x"], [("c", VOther "y"); ("b", VOther "z")]).
Proof.
  refine (proj1 (wrapped_rezips_merged_keys
                   Scenario.h_sig [Scenario.a] [("c", VNumber (NInt 5))]
                   [VOther "x"; VOther "y"; VOther "z"] _ _ _)).
  - apply (bool_decide_unpack _). vm_compute. exact I.
  - apply (bool_decide_unpack _). vm_compute. exact I.
  - reflexivity.
Defined.

(** C10: applied to the canonical flat argument list, the adapter gives
    back the original positional arguments and the merged keyword mapping;
    flattening that split again gives the same list, and the adapter the
    same split. *)
Theorem wrapped_all_args_roundtrip
    (sig : list param) (args : list value) (kwargs : Dict.t value) :
  let c := _traced sig args kwargs in
  wrapped c (all_args c) = (args, fn_kwargs c)
  /\ fst (wrapped c (all_args c)) ++ Dict.values (snd (wrapped c (all_args c)))
     = all_args c
  /\ wrapped c (fst (wrapped c (all_args c))
                  ++ Dict.values (snd (wrapped c (all_args c))))
     = wrapped c (all_args c).
Proof.
  intros c.
  assert (E : wrapped c (all_args c) = (args, fn_kwargs c)).
  { subst c. rewrite wrapped_closed. cbn [all_args _traced].
    rewrite take_app_length, drop_app_length.
    now rewrite combine_keys_values. }
  rewrite E. cbn [fst snd]. split; [reflexivity|].
  split; [reflexivity | exact E].
Qed.
(** ** What a computation adds to the trace *)

Section Emits.
Context {A B : Type}.
Implicit Types (Q : event -> bool).

Lemma bind_unfold (m : Py A) (f : A -> Py B) w :
  (m ≫= f) w
  = match m w with
    | (inr a, w') => f a w'
    | (inl e, w') => (inl e, w')
    end.
Proof. reflexivity. Qed.

Lemma emits_ret Q (a : A) : emits Q (mret a).
Proof. intros w. exists []. simpl. now rewrite app_nil_r. Qed.

Lemma emits_raise Q e : emits Q (@raise A e).
Proof. intros w. exists []. simpl. now rewrite app_nil_r. Qed.

Lemma emits_lift Q (r : exn + A) : emits Q (lift r).
Proof. intros w. exists []. simpl. now rewrite app_nil_r. Qed.

Lemma emits_bind Q (m : Py A) (f : A -> Py B) :
  emits Q m -> (forall a, emits Q (f a)) -> emits Q (m ≫= f).
Proof.
  intros Hm Hf w. destruct (Hm w) as (e1 & E1 & F1). rewrite bind_unfold.
  destruct (m w) as [[e|a] w1]; simpl in *.
  - exists e1. now split.
  - destruct (Hf a w1) as (e2 & E2 & F2). exists (e1 ++ e2).
    rewrite E2, E1, app_assoc, forallb_app, F1, F2. now split.
Qed.

Lemma emits_mono Q Q' (m : Py A) :
  (forall e, Q e = true -> Q' e = true) -> emits Q m -> emits Q' m.
Proof.
  intros HQ Hm w. destruct (Hm w) as (evs & E & F). exists evs.
  split; [exact E|]. rewrite forallb_forall in F |- *. auto.
Qed.

End Emits.

Lemma emits_emit Q e : Q e = true -> emits Q (emit e).
Proof. intros H w. exists [e]. simpl. now rewrite H. Qed.

Lemma emits_fresh Q : emits Q fresh.
Proof. intros w. exists []. simpl. now rewrite app_nil_r. Qed.

Lemma emits_for_each {A} Q (f : A -> Py unit) (l : list A) :
  (forall x, emits Q (f x)) -> emits Q (for_each f l).
Proof.
  intros Hf. induction l as [|x l IH]; simpl.
  - apply emits_ret.
  - apply emits_bind; [apply Hf | intros _; exact IH].
Qed.

Lemma emits_map_py {A B} Q (f : A -> Py B) (l : list A) :
  Forall (fun x => emits Q (f x)) l -> emits Q (map_py f l).
Proof.
  induction 1 as [|x l Hx _ IH]; simpl.
  - apply emits_ret.
  - apply emits_bind; [exact Hx | intros y].
    apply emits_bind; [exact IH | intros ys; apply emits_ret].
Qed.

Create HintDb emits.
#[local] Hint Resolve emits_ret emits_raise emits_lift emits_fresh : emits.

Ltac emits_step :=
  first [ apply emits_bind; [|intros ?]
        | apply emits_emit; reflexivity
        | solve [auto with emits] ].

Lemma emits_define_constant n : emits is_lowering_step (fd.define_constant n).
Proof. unfold fd.define_constant. repeat emits_step. Qed.

Lemma emits_to_nvfuser_constant arg : emits is_lowering_step (_to_nvfuser_constant arg).
Proof.
  destruct arg; simpl; auto with emits. apply emits_define_constant.
Qed.

Lemma emits_call_function target args kwargs :
  emits is_lowering_step (call_function target args kwargs).
Proof.
  unfold call_function. apply emits_bind.
  - apply emits_map_py, Forall_forall. intros x _. apply emits_to_nvfuser_constant.
  - intros args'. destruct (impl_nvfuser target); [|apply emits_raise].
    unfold fd.lower. repeat emits_step.
Qed.

Lemma emits_run_nodes ns : forall env, emits is_lowering_step (run_nodes env ns).
Proof.
  induction ns as [|n ns IH]; intros env; simpl; [apply emits_ret|].
  apply emits_bind; [|intros env'; apply IH].
  unfold run_node.
  apply emits_bind; [apply emits_lift | intros args].
  apply emits_bind; [apply emits_lift | intros kwargs].
  apply emits_bind; [apply emits_call_function | intros r; apply emits_ret].
Qed.

Lemma emits_run gm args kwargs : emits is_lowering_step (run gm args kwargs).
Proof.
  unfold run. destruct kwargs as [|[k v] ?]; [|apply emits_raise].
  apply emits_bind; [apply emits_lift | intros env].
  apply emits_bind; [apply emits_run_nodes | intros env'; apply emits_lift].
Qed.

Lemma emits_add_output o : emits is_add_output (fd.add_output o).
Proof.
  unfold fd.add_output. destruct (fd.is_tensor_leaf o); [|apply emits_raise].
  now apply emits_emit.
Qed.

(** ** Registering the inputs *)

Section Registration.
Variable getnvFuserDtype : string -> string.
Abbreviation input_events := (input_events getnvFuserDtype).
Abbreviation registered := (registered getnvFuserDtype).
Abbreviation to_nv := (to_nv getnvFuserDtype).

Lemma input_events_app ts1 : forall h ts2,
  input_events h (ts1 ++ ts2)
  = input_events h ts1 ++ input_events (h + length ts1) ts2.
Proof.
  induction ts1 as [|t ts1 IH]; intros h ts2; simpl.
  - now rewrite Nat.add_0_r.
  - rewrite IH. replace (h + S (length ts1)) with (S h + length ts1) by lia.
    reflexivity.
Qed.

Lemma registered_nil w : registered w [] = w.
Proof.
  destruct w as [h tr]. unfold registered. simpl.
  now rewrite Nat.add_0_r, app_nil_r.
Qed.

Lemma registered_app w ts1 ts2 :
  registered (registered w ts1) ts2 = registered w (ts1 ++ ts2).
Proof.
  unfold registered. simpl.
  rewrite length_app, input_events_app, <- app_assoc. f_equal. lia.
Qed.

Lemma tensors_of_flat_map (items : list value) :
  omap (fun x => match x with VTensor t => Some t | _ => None end)
       (flat_map tree_leaves items)
  = flat_map tensors_of items.
Proof.
  induction items as [|x items IH]; simpl; [reflexivity|].
  now rewrite omap_app, IH.
Qed.

Lemma tensors_of_flat_map_snd (items : list (string * value)) :
  omap (fun x => match x with VTensor t => Some t | _ => None end)
       (flat_map (fun kv => tree_leaves (snd kv)) items)
  = flat_map (fun kv => tensors_of (snd kv)) items.
Proof.
  induction items as [|x items IH]; simpl; [reflexivity|].
  now rewrite omap_app, IH.
Qed.

(** A loop whose steps each register some tensors registers them all. *)
Lemma map_py_registers {A B} (f : A -> Py B) (ts : A -> list tensor) (l : list A) :
  Forall (fun x => forall w, exists y, f x w = (inr y, registered w (ts x))) l ->
  forall w, exists ys,
    map_py f l w = (inr ys, registered w (flat_map ts l))
    /\ length ys = length l.
Proof.
  induction 1 as [|x l Hx _ IH]; intros w; simpl.
  - exists []. now rewrite registered_nil.
  - rewrite bind_unfold. destruct (Hx w) as (y & ->).
    rewrite bind_unfold. destruct (IH (registered w (ts x))) as (ys & -> & Hl).
    exists (y :: ys). simpl. now rewrite registered_app, Hl.
Qed.

(** [tree_map(to_nv, v)] never raises and registers the tensors of [v]. *)
Lemma tree_map_to_nv_registers (v : value) :
  forall w, exists v', tree_map to_nv v w = (inr v', registered w (tensors_of v)).
Proof.
  induction v as [t|n|h|h|s|items IH|items IH|items IH] using value_nested_ind;
    intros w.
  - exists (VNvTensor (next_handle w)). unfold registered. simpl.
    unfold fd.define_tensor, fd.add_input, fresh, emit, mbind, Py_bind, mret, Py_ret.
    simpl. now rewrite Nat.add_1_r, <- app_assoc.
  - exists (VNumber n). now rewrite registered_nil.
  - exists (VNvTensor h). now rewrite registered_nil.
  - exists (VNvScalar h). now rewrite registered_nil.
  - exists (VOther s). now rewrite registered_nil.
  - destruct (map_py_registers (tree_map to_nv) tensors_of items IH w)
      as (ys & E & _).
    exists (VTuple ys). cbn [tree_map]. rewrite bind_unfold, E.
    unfold tensors_of. cbn [tree_leaves]. now rewrite tensors_of_flat_map.
  - destruct (map_py_registers (tree_map to_nv) tensors_of items IH w)
      as (ys & E & _).
    exists (VList ys). cbn [tree_map]. rewrite bind_unfold, E.
    unfold tensors_of. cbn [tree_leaves]. now rewrite tensors_of_flat_map.
  - destruct (map_py_registers
                (fun kv => x ← tree_map to_nv (snd kv); mret (fst kv, x))
                (fun kv => tensors_of (snd kv)) items) with (w := w)
      as (ys & E & _).
    { eapply Forall_impl; [exact IH|]. intros [k x] Hx w'. simpl in *.
      destruct (Hx w') as (x' & Ex). exists (k, x').
      now rewrite bind_unfold, Ex. }
    exists (VDict ys). cbn [tree_map]. rewrite bind_unfold, E.
    unfold tensors_of. cbn [tree_leaves]. now rewrite tensors_of_flat_map_snd.
Qed.

(** Lines 64-65 register the tensors of the call and hand the graph
    as many positional and keyword arguments as the call has. *)
Lemma lower_graph_registers gm args kwargs w :
  exists nv_args nv_kwargs,
    length nv_args = length args /\ length nv_kwargs = length kwargs
    /\ lower_graph getnvFuserDtype gm args kwargs w
       = run gm nv_args nv_kwargs (registered w (call_tensors args kwargs)).
Proof.
  destruct (map_py_registers (tree_map to_nv) tensors_of args) with (w := w)
    as (nv_args & E1 & L1).
  { apply Forall_forall. intros x _. apply tree_map_to_nv_registers. }
  destruct (map_py_registers
              (fun kv => x ← tree_map to_nv (snd kv); mret (fst kv, x))
              (fun kv => tensors_of (snd kv)) kwargs)
    with (w := registered w (flat_map tensors_of args))
    as (nv_kwargs & E2 & L2).
  { apply Forall_forall. intros [k x] _ w'. simpl.
    destruct (tree_map_to_nv_registers x w') as (x' & Ex). exists (k, x').
    now rewrite bind_unfold, Ex. }
  exists nv_args, nv_kwargs. repeat split; [exact L1 | exact L2 |].
  unfold lower_graph. rewrite bind_unfold, E1, bind_unfold, E2.
  now rewrite registered_app.
Qed.

(** The trace of a definition: the inputs, then lowering steps and
    outputs. *)
Lemma define_fusion_trace gm args kwargs w :
  exists rest,
    trace (snd (define_fusion getnvFuserDtype gm args kwargs w))
    = trace w ++ input_events (next_handle w) (call_tensors args kwargs) ++ rest
    /\ forallb (fun e => is_lowering_step e || is_add_output e) rest = true.
Proof.
  unfold define_fusion.
  destruct (lower_graph_registers gm args kwargs w) as (a & k & _ & _ & E).
  rewrite bind_unfold, E.
  destruct (emits_run gm a k (registered w (call_tensors args kwargs)))
    as (e1 & E1 & F1).
  destruct (run gm a k (registered w (call_tensors args kwargs)))
    as [[e|out] w2]; simpl in E1 |- *.
  - exists e1. rewrite E1, <- app_assoc. split; [reflexivity|].
    rewrite forallb_forall in F1 |- *. intros x Hx. now rewrite F1.
  - unfold tree_flatten.
    assert (Ho : emits is_add_output
                   (_ ← for_each fd.add_output (tree_leaves out);
                    mret (tree_structure out))).
    { apply emits_bind; [|intros ?; apply emits_ret].
      apply emits_for_each, emits_add_output. }
    destruct (Ho w2) as (e2 & E2 & F2). exists (e1 ++ e2).
    rewrite E2, E1, <- !app_assoc. split; [reflexivity|].
    rewrite forallb_app. apply andb_true_intro. split.
    + rewrite forallb_forall in F1 |- *. intros x Hx. now rewrite F1.
    + rewrite forallb_forall in F2 |- *. intros x Hx.
      rewrite (F2 x Hx). apply orb_true_r.
Qed.

End Registration.

(** ** Lowering a node *)

(** Line 47 in closed form. *)
Lemma map_py_to_nvfuser_constant (args : list value) : forall w,
  map_py _to_nvfuser_constant args w
  = (inr (with_constants (next_handle w) args),
     {| next_handle := next_handle w + count_numbers args;
        trace := trace w ++ constant_events (next_handle w) args |}).
Proof.
  unfold count_numbers.
  induction args as [|x args IH]; intros [h tr]; simpl.
  - now rewrite Nat.add_0_r, app_nil_r.
  - rewrite bind_unfold.
    destruct x; simpl; rewrite bind_unfold, IH; simpl;
      try reflexivity.
    rewrite <- app_assoc. simpl. do 3 f_equal. lia.
Qed.

Lemma call_function_lowers target rule args kwargs w :
  impl_nvfuser target = Some rule ->
  let h := next_handle w + count_numbers args in
  call_function target args kwargs w
  = (inr (VNvTensor h),
     {| next_handle := S h;
        trace := trace w ++ constant_events (next_handle w) args
                 ++ [EvLower h rule (with_constants (next_handle w) args) kwargs] |}).
Proof.
  intros Hr h. unfold call_function.
  rewrite bind_unfold, map_py_to_nvfuser_constant, Hr.
  unfold fd.lower, fresh, emit, mbind, Py_bind, mret, Py_ret. simpl.
  now rewrite <- app_assoc.
Qed.

Lemma call_function_missing target args kwargs w :
  impl_nvfuser target = None ->
  call_function target args kwargs w
  = (inl (AttributeError (t_name target) "impl_nvfuser"),
     {| next_handle := next_handle w + count_numbers args;
        trace := trace w ++ constant_events (next_handle w) args |}).
Proof.
  intros Hr. unfold call_function.
  now rewrite bind_unfold, map_py_to_nvfuser_constant, Hr.
Qed.

(** ** The nvfuser branch of execute *)

(** The nvfuser branch in terms of the definition it makes: the fusion is
    created, the scope entered, and the scope is left after the definition
    raised or after the backend's execute was called. *)
Lemma execute_nvfuser_unfold dt fwd comp gm args kwargs w :
  let w1 := {| next_handle := next_handle w;
               trace := trace w ++ [EvFusion; EvEnter] |} in
  execute true dt fwd comp gm args "nvfuser" kwargs w
  = match define_fusion dt gm args kwargs w1 with
    | (inl e, w2) =>
        (inl e, {| next_handle := next_handle w2; trace := trace w2 ++ [EvExit] |})
    | (inr unflatten_spec, w2) =>
        (match comp (trace w2) (List.filter is_Tensor args) with
         | inr outs => tree_unflatten outs unflatten_spec
         | inl e => inl e
         end,
         {| next_handle := next_handle w2;
            trace := trace w2 ++ [EvExecute (List.filter is_Tensor args); EvExit] |})
    end.
Proof.
  intros w1. unfold execute. simpl.
  unfold with_FusionDefinition, definition_body, emit, mbind, Py_bind. simpl.
  rewrite <- app_assoc. simpl. fold w1.
  destruct (define_fusion dt gm args kwargs w1) as [[e|spec] w2]; [reflexivity|].
  unfold fusion_execute, lift. simpl.
  destruct (comp (trace w2) (List.filter _ args)) as [e|outs]; simpl;
    now rewrite <- app_assoc.
Qed.

Lemma definition_steps_of_parts dt h ts rest :
  forallb (fun e => is_lowering_step e || is_add_output e) rest = true ->
  forallb is_definition_step (input_events dt h ts ++ rest) = true.
Proof.
  intros H. rewrite forallb_app. apply andb_true_intro. split.
  - revert h. induction ts as [|t ts IH]; intros h; simpl; [reflexivity | apply IH].
  - rewrite forallb_forall in H |- *. intros e He. specialize (H e He).
    destruct e; simpl in *; congruence.
Qed.

Lemma for_each_add_output_refuses (leaf : value) (l : list value) :
  In leaf l -> fd.is_tensor_leaf leaf = false ->
  forall w, exists bad w',
    for_each fd.add_output l w = (inl (LoweringError bad), w')
    /\ In bad l /\ fd.is_tensor_leaf bad = false.
Proof.
  induction l as [|x l IH]; intros Hin Hleaf w; [contradiction|].
  simpl. rewrite bind_unfold. unfold fd.add_output at 1.
  destruct (fd.is_tensor_leaf x) eqn:Hx.
  - destruct Hin as [->|Hin]; [congruence|].
    simpl. destruct (IH Hin Hleaf {| next_handle := next_handle w;
                                    trace := trace w ++ [EvAddOutput x] |})
      as (bad & w' & E & Hb & Hl).
    exists bad, w'. rewrite E. repeat split; [now right | exact Hl].
  - exists x, w. simpl. repeat split; [now left | exact Hx].
Qed.

(** ** Running a well-scoped graph *)

Lemma all_or_error_ok {A B} (f : A -> exn + B) (l : list A) :
  Forall (fun x => exists v, f x = inr v) l ->
  exists vs, all_or_error (map f l) = inr vs.
Proof.
  induction 1 as [|x l (v & Hv) _ (vs & IH)]; simpl.
  - now exists [].
  - rewrite Hv, IH. now exists (v :: vs).
Qed.

Lemma fetch_scoped (env : environment) (a : argument) :
  (forall r, In r (refs a) -> is_Some (env !! r)) ->
  exists v, fetch env a = inr v.
Proof.
  induction a as [n|v|items IH|items IH|items IH] using argument_nested_ind;
    intros Hs.
  - destruct (Hs n) as (v & Hv); [now left|]. exists v. simpl. now rewrite Hv.
  - now exists v.
  - destruct (all_or_error_ok (fetch env) items) as (vs & E).
    { rewrite Forall_forall in IH |- *. intros x Hx. apply (IH x Hx).
      intros r Hr. apply Hs. simpl. apply in_flat_map. exists x.
      split; [now apply list_elem_of_In | exact Hr]. }
    exists (VTuple vs). simpl. now rewrite E.
  - destruct (all_or_error_ok (fetch env) items) as (vs & E).
    { rewrite Forall_forall in IH |- *. intros x Hx. apply (IH x Hx).
      intros r Hr. apply Hs. simpl. apply in_flat_map. exists x.
      split; [now apply list_elem_of_In | exact Hr]. }
    exists (VList vs). simpl. now rewrite E.
  - destruct (all_or_error_ok
                (fun kv => match fetch env (snd kv) with
                           | inr x => inr (fst kv, x)
                           | inl e => inl e
                           end) items) as (vs & E).
    { rewrite Forall_forall in IH |- *. intros x Hx.
      destruct (IH x Hx) as (v & Hv).
      - intros r Hr. apply Hs. simpl. apply in_flat_map. exists x.
        split; [now apply list_elem_of_In | exact Hr].
      - exists (fst x, v). now rewrite Hv. }
    exists (VDict vs). simpl. now rewrite E.
Qed.

Lemma fetch_node_scoped (env : environment) (n : Node) :
  (forall r, In r (node_refs n) -> is_Some (env !! r)) ->
  exists args kwargs,
    all_or_error (map (fetch env) (n_args n)) = inr args
    /\ all_or_error (map (fun kv => match fetch env (snd kv) with
                                     | inr x => inr (fst kv, x)
                                     | inl e => inl e
                                     end) (n_kwargs n)) = inr kwargs.
Proof.
  intros Hs. unfold node_refs in Hs.
  destruct (all_or_error_ok (fetch env) (n_args n)) as (args & E1).
  { apply Forall_forall. intros x Hx. apply fetch_scoped. intros r Hr.
    apply Hs, in_or_app. left. apply in_flat_map. exists x.
    split; [now apply list_elem_of_In | exact Hr]. }
  destruct (all_or_error_ok
              (fun kv => match fetch env (snd kv) with
                         | inr x => inr (fst kv, x)
                         | inl e => inl e
                         end) (n_kwargs n)) as (kwargs & E2).
  { apply Forall_forall. intros x Hx. destruct (fetch_scoped env (snd x)) as (v & Hv).
    - intros r Hr. apply Hs, in_or_app. right. apply in_flat_map. exists x.
      split; [now apply list_elem_of_In | exact Hr].
    - exists (fst x, v). now rewrite Hv. }
  now exists args, kwargs.
Qed.

Lemma bind_placeholders_ok (names : list string) : forall args (env : environment),
  length names <= length args ->
  exists env', bind_placeholders names args env = inr env'
    /\ forall k, In k names -> is_Some (env' !! k).
Proof.
  assert (Hkeep : forall names args (env env' : environment) k,
             bind_placeholders names args env = inr env' ->
             is_Some (env !! k) -> is_Some (env' !! k)).
  { clear. induction names as [|n names IH]; intros args env env' k E Hk; simpl in E.
    - now inversion E; subst.
    - destruct args as [|a args]; [discriminate|].
      apply (IH _ _ _ k) in E; [exact E|].
      destruct (decide (n = k)) as [->|Hne].
      + rewrite lookup_insert_eq. eauto.
      + now rewrite lookup_insert_ne. }
  induction names as [|n names IH]; intros args env Hlen; simpl.
  - exists env. split; [reflexivity | contradiction].
  - destruct args as [|a args]; simpl in Hlen; [lia|].
    destruct (IH args (<[n := a]> env)) as (env' & E & Hin); [lia|].
    exists env'. split; [exact E|]. intros k [<-|Hk]; [|now apply Hin].
    apply (Hkeep _ _ _ _ n E). rewrite lookup_insert_eq. eauto.
Qed.

Lemma run_nodes_ok (ns : list Node) : forall known (env : environment) w,
  well_scoped known ns ->
  (forall k, In k known -> is_Some (env !! k)) ->
  Forall has_rule ns ->
  exists env' w',
    run_nodes env ns w = (inr env', w')
    /\ forall k, In k (rev (map n_name ns) ++ known) -> is_Some (env' !! k).
Proof.
  induction ns as [|n ns IH]; intros known env w Hws Hk Hr; simpl.
  - now exists env, w.
  - destruct Hws as [Hn Hws].
    apply Forall_cons in Hr. destruct Hr as [Hrule Hr].
    destruct (fetch_node_scoped env n) as (args & kwargs & E1 & E2);
      [intros r Hin; apply Hk, Hn, Hin|].
    destruct (impl_nvfuser (n_target n)) as [rule|] eqn:Erule;
      [|now contradiction Hrule].
    rewrite bind_unfold. unfold run_node, lift.
    rewrite bind_unfold, E1, bind_unfold, E2, bind_unfold.
    rewrite (call_function_lowers _ rule) by exact Erule. cbv zeta. simpl.
    match goal with |- context [run_nodes ?e ns ?w1] =>
      destruct (IH (n_name n :: known) e w1 Hws) as (env' & w' & E & Hk')
    end; [|exact Hr|].
    + intros k [<-|Hin].
      * rewrite lookup_insert_eq. eauto.
      * destruct (decide (n_name n = k)) as [->|Hne].
        -- rewrite lookup_insert_eq. eauto.
        -- rewrite lookup_insert_ne by exact Hne. now apply Hk.
    + exists env', w'. split; [exact E|]. intros k Hin. apply Hk'.
      rewrite <- app_assoc in Hin. exact Hin.
Qed.

Lemma run_nodes_app (ns1 ns2 : list Node) : forall (env : environment) w,
  run_nodes env (ns1 ++ ns2) w
  = match run_nodes env ns1 w with
    | (inr env', w') => run_nodes env' ns2 w'
    | (inl e, w') => (inl e, w')
    end.
Proof.
  induction ns1 as [|n ns1 IH]; intros env w; simpl; [reflexivity|].
  rewrite !bind_unfold. destruct (run_node env n w) as [[e|env1] w1];
    [reflexivity | apply IH].
Qed.

Lemma well_scoped_app (ns1 ns2 : list Node) : forall known,
  well_scoped known (ns1 ++ ns2) ->
  well_scoped known ns1 /\ well_scoped (rev (map n_name ns1) ++ known) ns2.
Proof.
  induction ns1 as [|n ns1 IH]; intros known H; simpl in *; [now split|].
  destruct H as [Hn H]. apply IH in H. destruct H as [H1 H2].
  rewrite <- app_assoc. simpl. now repeat split.
Qed.


(** A graph with a node whose target has no [impl_nvfuser] is never
    lowered to the end, whatever else goes wrong first. *)
Lemma run_nodes_unlowerable (ns : list Node) (n : Node) :
  In n ns -> impl_nvfuser (n_target n) = None ->
  forall (env : environment) w, exists e w', run_nodes env ns w = (inl e, w').
Proof.
  intros Hin Hmiss. induction ns as [|m ns IH]; [contradiction|].
  intros env w. simpl. rewrite bind_unfold.
  destruct Hin as [->|Hin].
  - unfold run_node, lift. rewrite bind_unfold.
    destruct (all_or_error (map (fetch env) (n_args n))) as [e|args]; [eauto|].
    rewrite bind_unfold.
    destruct (all_or_error _) as [e|kwargs]; [eauto|].
    rewrite bind_unfold, call_function_missing by exact Hmiss. eauto.
  - destruct (run_node env m w) as [[e|env'] w']; [eauto | now apply IH].
Qed.

Lemma unlowerable_graph_raises
    dt fwd comp (gm : GraphModule) (args : list value) (kwargs : Dict.t value)
    (n : Node) (w : world) :
  In n (nodes gm) -> impl_nvfuser (n_target n) = None ->
  exists e, fst (execute true dt fwd comp gm args "nvfuser" kwargs w) = inl e.
Proof.
  intros Hin Hmiss. rewrite execute_nvfuser_unfold. cbv zeta.
  match goal with |- context [define_fusion dt gm args kwargs ?w1] =>
    assert (Ed : exists e w2, define_fusion dt gm args kwargs w1 = (inl e, w2));
    [|destruct Ed as (e & w2 & ->); now exists e]
  end.
  unfold define_fusion. setoid_rewrite bind_unfold.
  match goal with |- context [lower_graph dt gm args kwargs ?w1] =>
    destruct (lower_graph_registers dt gm args kwargs w1) as (a & k & _ & _ & ->)
  end.
  unfold run. destruct k as [|[key v] k]; [|unfold raise; eauto].
  rewrite bind_unfold. unfold lift at 1.
  destruct (bind_placeholders (placeholders gm) a ∅) as [e|env]; [eauto|].
  rewrite bind_unfold.
  match goal with |- context [run_nodes env (nodes gm) ?w0] =>
    destruct (run_nodes_unlowerable (nodes gm) n Hin Hmiss env w0) as (e & w' & ->)
  end.
  eauto.
Qed.

(** ** Claims on the dispatcher *)

(** C5: for every executor name other than "aten" and "nvfuser", [execute]
    raises the ValueError of line 81 (the spec's InvalidExecutorError),
    whose message carries the offending name and the valid names, and it
    has called neither the graph nor the backend: the world is unchanged. *)
Theorem unexpected_executor_raises
    cuda dt fwd comp (gm : GraphModule) (args : list value) (executor : string)
    (kwargs : Dict.t value) (w : world) :
  executor <> "aten" -> executor <> "nvfuser" ->
  execute cuda dt fwd comp gm args executor kwargs w
  = (inl (ValueError ("Received unexpected value for 'executor': " ++ executor
                        ++ ". Allowed values are: aten, nvfuser.")%string), w).
Proof.
  intros Ha Hn. unfold execute.
  destruct (String.eqb_spec executor "aten") as [E|_]; [contradiction|].
  destruct (String.eqb_spec executor "nvfuser") as [E|_]; [contradiction|].
  reflexivity.
Qed.

Lemma unexpected_executor_raises_witness :
  execute true Graphs.nvfuser_dtype Graphs.no_forward Graphs.one_buffer_each
          Graphs.g [Scenario.a; Scenario.two] "cuda" [] Graphs.start
  = (inl (ValueError
            "Received unexpected value for 'executor': cuda. Allowed values are: aten, nvfuser."),
     Graphs.start).
Proof.
  apply (unexpected_executor_raises true Graphs.nvfuser_dtype Graphs.no_forward
           Graphs.one_buffer_each Graphs.g [Scenario.a; Scenario.two] "cuda"
           [] Graphs.start);
    discriminate.
Defined.

(** C6: with the nvfuser executor and no CUDA device, [execute] raises the
    RuntimeError of line 29 (the spec's BackendUnavailableError) for every
    graph and arguments, before any call on the backend: the world is
    unchanged. *)
Theorem nvfuser_without_cuda_raises
    dt fwd comp (gm : GraphModule) (args : list value) (kwargs : Dict.t value)
    (w : world) :
  execute false dt fwd comp gm args "nvfuser" kwargs w
  = (inl (RuntimeError
            "Attempting to use nvFuser trace executor but CUDA is not available!"),
     w).
Proof. reflexivity. Qed.

(** ** Claims on the nvfuser executor *)

(** C9: every nvfuser execution enters the definition scope right after
    the fusion is created, records all its definition steps inside it and
    leaves it as its last action, whether the definition raised or not;
    when the definition raises, the exception goes on after the exit and
    nothing was executed, and the backend's execute is called only on a
    definition that was completed. *)
Theorem definition_scope_released
    dt fwd comp (gm : GraphModule) (args : list value) (kwargs : Dict.t value)
    (w : world) :
  let w1 := {| next_handle := next_handle w;
               trace := trace w ++ [EvFusion; EvEnter] |} in
  let '(r, w') := execute true dt fwd comp gm args "nvfuser" kwargs w in
  let '(d, w2) := define_fusion dt gm args kwargs w1 in
  (exists defs, trace w2 = trace w1 ++ defs
                /\ forallb is_definition_step defs = true)
  /\ match d with
     | inl e => r = inl e /\ trace w' = trace w2 ++ [EvExit]
     | inr _ => trace w' = trace w2 ++ [EvExecute (List.filter is_Tensor args); EvExit]
     end.
Proof.
  intros w1.
  pose proof (execute_nvfuser_unfold dt fwd comp gm args kwargs w) as E.
  pose proof (define_fusion_trace dt gm args kwargs w1) as (rest & T & F).
  fold w1 in E. cbv zeta in E. rewrite E.
  destruct (define_fusion dt gm args kwargs w1) as [[e|spec] w2]; simpl in *.
  - split; [|split; reflexivity].
    eexists. split; [exact T | now apply definition_steps_of_parts].
  - split; [|reflexivity].
    eexists. split; [exact T | now apply definition_steps_of_parts].
Qed.

(** On the nvfuser path the only inputs registered are the tensors of the
    call, so no scalar number is one; [to_nv] hands a number on as it is,
    without a call on the backend; and a number among the positional
    operands of a node is defined as a constant when that node is lowered,
    the lowering rule receiving the constant's handle.  For [g(a, c=2.0)]
    the 2.0 is recorded as a constant, not as an input. *)
Theorem scalars_become_constants_not_inputs dt fwd comp :
  (forall gm args kwargs w, exists rest,
      trace (snd (execute true dt fwd comp gm args "nvfuser" kwargs w))
      = trace w ++ [EvFusion; EvEnter]
        ++ input_events dt (next_handle w) (call_tensors args kwargs) ++ rest
      /\ forallb (fun e => negb (is_add_input e)) rest = true)
  /\ (forall n w, to_nv dt (VNumber n) w = (inr (VNumber n), w))
  /\ (forall name rule n before after kwargs w,
        let args := before ++ VNumber n :: after in
        let h := next_handle w + count_numbers before in
        In (EvDefineConstant h n) (constant_events (next_handle w) args)
        /\ nth_error (with_constants (next_handle w) args) (length before)
           = Some (VNvScalar h)
        /\ trace (snd (call_function (mkTarget name (Some rule)) args kwargs w))
           = trace w ++ constant_events (next_handle w) args
             ++ [EvLower (next_handle w + count_numbers args) rule
                   (with_constants (next_handle w) args) kwargs])
  /\ trace (snd (execute true dt fwd comp Graphs.g [Scenario.a; Scenario.two]
                   "nvfuser" [] Graphs.start))
     = [EvFusion; EvEnter;
        EvDefineTensor 0 [2%Z; 3%Z] [3%Z; 1%Z] (dt "torch.float32");
        EvAddInput (VNvTensor 0);
        EvDefineConstant 1 (NFloat (S754_finite false 4503599627370496 (-51)));
        EvLower 2 "fd.Ops.mul" [VNvTensor 0; VNvScalar 1] [];
        EvAddOutput (VNvTensor 2);
        EvExecute [Scenario.a];
        EvExit].
Proof.
  split; [|split; [|split]].
  - intros gm args kwargs w.
    pose proof (execute_nvfuser_unfold dt fwd comp gm args kwargs w) as E.
    cbv zeta in E. rewrite E. clear E.
    match goal with |- context [define_fusion dt gm args kwargs ?w1] =>
      pose proof (define_fusion_trace dt gm args kwargs w1) as (rest & T & F);
      destruct (define_fusion dt gm args kwargs w1) as [[e|spec] w2]
    end; simpl in *.
    + exists (rest ++ [EvExit]). rewrite T, <- !app_assoc. split; [reflexivity|].
      rewrite forallb_app. apply andb_true_intro. split; [|reflexivity].
      rewrite forallb_forall in F |- *. intros x Hx. specialize (F x Hx).
      destruct x; simpl in *; congruence.
    + exists (rest ++ [EvExecute (List.filter is_Tensor args); EvExit]).
      rewrite T, <- !app_assoc. split; [reflexivity|].
      rewrite forallb_app. apply andb_true_intro. split; [|reflexivity].
      rewrite forallb_forall in F |- *. intros x Hx. specialize (F x Hx).
      destruct x; simpl in *; congruence.
  - reflexivity.
  - intros name rule n before after kwargs w args h. split; [|split].
    + subst args h. generalize (next_handle w). clear.
      induction before as [|x before IH]; intros h; simpl.
      * left. f_equal. unfold count_numbers. simpl. lia.
      * destruct x; simpl; try apply IH.
        right. unfold count_numbers in *. simpl.
        replace (h + S (length (List.filter is_Number before)))
          with (S h + length (List.filter is_Number before)) by lia.
        apply IH.
    + subst args h. generalize (next_handle w). clear.
      induction before as [|x before IH]; intros h; simpl.
      * do 2 f_equal. unfold count_numbers. simpl. lia.
      * destruct x; simpl; try apply IH.
        unfold count_numbers in *. simpl.
        replace (h + S (length (List.filter is_Number before)))
          with (S h + length (List.filter is_Number before)) by lia.
        apply IH.
    + now rewrite (call_function_lowers (mkTarget name (Some rule)) rule).
  - rewrite execute_nvfuser_unfold. vm_compute. reflexivity.
Qed.

(** C8: when the graph has been lowered, all its nodes included, and a
    leaf of its flattened output is no tensor, the nvfuser execution raises
    the LoweringError of [add_output] on such a leaf; the trace holds
    definition steps only, so the backend's execute was not called. *)
Theorem non_tensor_output_raises
    dt fwd comp (gm : GraphModule) (args : list value) (kwargs : Dict.t value)
    (w w2 : world) (out leaf : value) :
  lower_graph dt gm args kwargs
    {| next_handle := next_handle w; trace := trace w ++ [EvFusion; EvEnter] |}
  = (inr out, w2) ->
  In leaf (tree_leaves out) -> fd.is_tensor_leaf leaf = false ->
  exists bad w' defs,
    execute true dt fwd comp gm args "nvfuser" kwargs w = (inl (LoweringError bad), w')
    /\ In bad (tree_leaves out) /\ fd.is_tensor_leaf bad = false
    /\ trace w' = trace w ++ [EvFusion; EvEnter] ++ defs ++ [EvExit]
    /\ forallb is_definition_step defs = true
    /\ forallb (fun e => negb (is_execute e)) (defs ++ [EvExit]) = true.
Proof.
  intros Hlow Hin Hleaf.
  pose proof (execute_nvfuser_unfold dt fwd comp gm args kwargs w) as E.
  cbv zeta in E.
  set (w1 := {| next_handle := next_handle w;
                trace := trace w ++ [EvFusion; EvEnter] |}) in *.
  pose proof (define_fusion_trace dt gm args kwargs w1) as (rest & T & F).
  destruct (for_each_add_output_refuses leaf _ Hin Hleaf w2)
    as (bad & w3 & Ef & Hb & Hl).
  assert (Ed : define_fusion dt gm args kwargs w1 = (inl (LoweringError bad), w3)).
  { unfold define_fusion. rewrite bind_unfold, Hlow. unfold tree_flatten.
    now rewrite bind_unfold, Ef. }
  rewrite Ed in E, T. simpl in T.
  exists bad, {| next_handle := next_handle w3; trace := trace w3 ++ [EvExit] |},
    (input_events dt (next_handle w1) (call_tensors args kwargs) ++ rest).
  pose proof (definition_steps_of_parts dt (next_handle w1)
                (call_tensors args kwargs) rest F) as Hd.
  repeat split; try assumption.
  - simpl. rewrite T. subst w1. simpl. now rewrite <- !app_assoc.
  - rewrite forallb_app. apply andb_true_intro. split; [|reflexivity].
    rewrite forallb_forall in Hd |- *. intros e He. specialize (Hd e He).
    destruct e; simpl in *; congruence.
Qed.

Lemma non_tensor_output_raises_witness :
  exists bad w' defs,
    execute true Graphs.nvfuser_dtype Graphs.no_forward Graphs.one_buffer_each
            Graphs.g_and_scalar [Scenario.a; Scenario.two] "nvfuser" []
            Graphs.start
    = (inl (LoweringError bad), w')
    /\ In bad [VNvTensor 2; Scenario.two] /\ fd.is_tensor_leaf bad = false
    /\ trace w' = [] ++ [EvFusion; EvEnter] ++ defs ++ [EvExit]
    /\ forallb is_definition_step defs = true
    /\ forallb (fun e => negb (is_execute e)) (defs ++ [EvExit]) = true.
Proof.
  apply (non_tensor_output_raises Graphs.nvfuser_dtype Graphs.no_forward
           Graphs.one_buffer_each Graphs.g_and_scalar
           [Scenario.a; Scenario.two] [] Graphs.start
           {| next_handle := 3;
              trace := [EvFusion; EvEnter;
                        EvDefineTensor 0 [2%Z; 3%Z] [3%Z; 1%Z] "DataType.Float";
                        EvAddInput (VNvTensor 0);
                        EvDefineConstant 1
                          (NFloat (S754_finite false 4503599627370496 (-51)));
                        EvLower 2 "fd.Ops.mul" [VNvTensor 0; VNvScalar 1] []] |}
           (VTuple [VNvTensor 2; Scenario.two]) Scenario.two).
  - vm_compute. reflexivity.
  - simpl. right. left. reflexivity.
  - reflexivity.
Defined.

(** C1 fails on the code: with a list of two tensors as the only
    argument, lines 64-65 register both tensors as inputs, with their size,
    stride and translated dtype, and line 73 hands the backend's execute no
    buffer at all; the buffers are the top-level positional tensors only. *)
Theorem execute_omits_registered_inputs dt fwd comp :
  trace (snd (execute true dt fwd comp Graphs.concat
                [VList [Scenario.a; Scenario.b]] "nvfuser" [] Graphs.start))
  = [EvFusion; EvEnter;
     EvDefineTensor 0 [2%Z; 3%Z] [3%Z; 1%Z] (dt "torch.float32");
     EvAddInput (VNvTensor 0);
     EvDefineTensor 1 [2%Z; 3%Z] [3%Z; 1%Z] (dt "torch.float32");
     EvAddInput (VNvTensor 1);
     EvLower 2 "fd.Ops.cat" [VList [VNvTensor 0; VNvTensor 1]] [];
     EvAddOutput (VNvTensor 2);
     EvExecute [];
     EvExit].
Proof. rewrite execute_nvfuser_unfold. vm_compute. reflexivity. Qed.

(** C7: when the nodes before a node can be lowered and that node's
    target has no [impl_nvfuser], the nvfuser execution of a graph that
    keeps the graph invariant raises the AttributeError of line 48 on that
    target (the spec's LoweringError, naming the operation); the trace
    holds definition steps only and the scope is left. *)
Theorem missing_lowering_rule_raises
    dt fwd comp (gm : GraphModule) (args : list value)
    (pre post : list Node) (n : Node) (w : world) :
  nodes gm = pre ++ n :: post ->
  length (placeholders gm) <= length args ->
  well_scoped (placeholders gm) (pre ++ [n]) ->
  Forall has_rule pre ->
  impl_nvfuser (n_target n) = None ->
  exists w' defs,
    execute true dt fwd comp gm args "nvfuser" [] w
    = (inl (AttributeError (t_name (n_target n)) "impl_nvfuser"), w')
    /\ trace w' = trace w ++ [EvFusion; EvEnter] ++ defs ++ [EvExit]
    /\ forallb is_definition_step defs = true.
Proof.
  intros Hnodes Hlen Hws Hrules Hmiss.
  pose proof (execute_nvfuser_unfold dt fwd comp gm args [] w) as E.
  cbv zeta in E.
  set (w1 := {| next_handle := next_handle w;
                trace := trace w ++ [EvFusion; EvEnter] |}) in *.
  pose proof (define_fusion_trace dt gm args [] w1) as (rest & T & F).
  assert (Ed : exists w2, define_fusion dt gm args [] w1
               = (inl (AttributeError (t_name (n_target n)) "impl_nvfuser"), w2)).
  { unfold define_fusion.
    destruct (lower_graph_registers dt gm args [] w1) as (a & k & La & Lk & El).
    setoid_rewrite bind_unfold. rewrite El.
    destruct k; [|discriminate]. unfold run.
    destruct (bind_placeholders_ok (placeholders gm) a ∅) as (env & Eb & Hb);
      [lia|].
    rewrite !bind_unfold. unfold lift at 1. rewrite Eb, Hnodes, bind_unfold.
    apply well_scoped_app in Hws. destruct Hws as [Hpre [Hn _]].
    rewrite run_nodes_app.
    match goal with |- context [run_nodes env pre ?w0] =>
      destruct (run_nodes_ok pre (placeholders gm) env w0 Hpre Hb Hrules)
        as (env1 & w3 & -> & Hk)
    end.
    destruct (fetch_node_scoped env1 n) as (nargs & nkwargs & E1 & E2);
      [intros r Hin; apply Hk, Hn, Hin|].
    simpl. rewrite bind_unfold. unfold run_node, lift.
    rewrite bind_unfold, E1, bind_unfold, E2, bind_unfold.
    rewrite call_function_missing by exact Hmiss. eauto. }
  destruct Ed as (w2 & Ed). rewrite Ed in E, T. simpl in T.
  exists {| next_handle := next_handle w2; trace := trace w2 ++ [EvExit] |},
    (input_events dt (next_handle w1) (call_tensors args []) ++ rest).
  split; [exact E|]. split.
  - simpl. rewrite T. subst w1. simpl. now rewrite <- !app_assoc.
  - now apply definition_steps_of_parts.
Qed.

Lemma missing_lowering_rule_raises_witness :
  exists w' defs,
    execute true Graphs.nvfuser_dtype Graphs.no_forward Graphs.one_buffer_each
            Graphs.unlowerable [Scenario.a; Scenario.two] "nvfuser" []
            Graphs.start
    = (inl (AttributeError "prims.erf_inv" "impl_nvfuser"), w')
    /\ trace w' = [] ++ [EvFusion; EvEnter] ++ defs ++ [EvExit]
    /\ forallb is_definition_step defs = true.
Proof.
  apply (missing_lowering_rule_raises Graphs.nvfuser_dtype Graphs.no_forward
           Graphs.one_buffer_each Graphs.unlowerable [Scenario.a; Scenario.two]
           [mkNode "mul" Graphs.mul [ARef "a_1"; ARef "c_1"] []]
           [mkNode "mul_1" Graphs.mul [ARef "erf_inv"; ARef "mul"] []]
           (mkNode "erf_inv" Graphs.erf_inv [ARef "mul"] [])
           Graphs.start).
  - reflexivity.
  - simpl. lia.
  - simpl. intuition.
  - repeat constructor. discriminate.
  - reflexivity.
Defined.

(** When the arguments of a call are leaves and no tensor is passed by
    keyword, the buffers of line 73 are the registered tensors, in the
    order of their registration. *)
Lemma flat_positional_buffers (args : list value) (kwargs : Dict.t value) :
  Forall (fun v => tree_leaves v = [v]) args ->
  Forall (fun kv => tensors_of (snd kv) = []) kwargs ->
  map VTensor (call_tensors args kwargs) = List.filter is_Tensor args.
Proof.
  intros Ha Hk. unfold call_tensors.
  assert (E : flat_map (fun kv : string * value => tensors_of (snd kv)) kwargs = []).
  { induction Hk as [|kv kwargs Hkv _ IH]; simpl; [reflexivity|].
    now rewrite Hkv, IH. }
  rewrite E, app_nil_r. clear E Hk.
  induction Ha as [|v args Hv _ IH]; simpl; [reflexivity|].
  rewrite map_app, IH. unfold tensors_of. rewrite Hv.
  destruct v; reflexivity.
Qed.

(** * Further properties *)

(** ** The canonicalizer *)

Lemma get_app {V} (k : string) (d1 d2 : Dict.t V) :
  Dict.get k (d1 ++ d2)
  = match Dict.get k d1 with
    | Some v => Some v
    | None => Dict.get k d2
    end.
Proof.
  induction d1 as [|[k' v'] d1 IH]; simpl; [reflexivity|].
  destruct (String.eqb k k'); [reflexivity | exact IH].
Qed.

Lemma get_None_iff {V} (k : string) (d : Dict.t V) :
  Dict.get k d = None <-> ~ In k (Dict.keys d).
Proof.
  induction d as [|[k' v'] d IH]; simpl; [tauto|].
  destruct (String.eqb_spec k k') as [->|Hne].
  - split; [discriminate | intros H; exfalso; apply H; now left].
  - rewrite IH. split; [intros H [E|Hin]; [congruence | now apply H] | tauto].
Qed.

Lemma get_missing_defaults (kwargs : Dict.t value) (k : string) (ps : list param) :
  NoDup (map p_name ps) -> Dict.get k kwargs = None ->
  Dict.get k (missing_defaults kwargs ps) = default_of k ps.
Proof.
  intros Hnd Hk. induction ps as [|p ps IH]; [reflexivity|].
  change (map p_name (p :: ps)) with (p_name p :: map p_name ps) in Hnd.
  apply NoDup_cons in Hnd. destruct Hnd as [Hp Hnd]. rewrite list_elem_of_In in Hp.
  specialize (IH Hnd). unfold missing_defaults in *. simpl.
  assert (Hout : forall q, k = p_name p ->
            Dict.get k (omap (fun p0 : param =>
                    match p_default p0 with
                    | Some v => if Dict.mem (p_name p0) kwargs then None
                                else Some (p_name p0, v)
                    | None => None
                    end) ps) = q -> q = None).
  { intros q -> <-. apply get_None_iff. intros Hin. apply Hp.
    unfold Dict.keys in Hin. apply in_map_iff in Hin.
    destruct Hin as ([k' v'] & <- & Hin). apply list_elem_of_In in Hin.
    apply list_elem_of_omap in Hin. destruct Hin as (q & Hq & Hsome).
    apply in_map_iff. exists q. split; [|now apply list_elem_of_In].
    destruct (p_default q); [|discriminate].
    destruct (Dict.mem (p_name q) kwargs); [discriminate|]. now inversion Hsome. }
  destruct (String.eqb_spec k (p_name p)) as [E|Hne].
  - destruct (p_default p) as [dv|] eqn:Hd.
    + assert (Hm : Dict.mem (p_name p) kwargs = false).
      { apply mem_false_iff, get_None_iff. now rewrite <- E. }
      rewrite Hm. simpl. rewrite <- E, String.eqb_refl. reflexivity.
    + now apply (Hout _ E eq_refl).
  - destruct (p_default p) as [dv|]; [|exact IH].
    destruct (Dict.mem (p_name p) kwargs); [exact IH|].
    simpl. destruct (String.eqb_spec k (p_name p)); [contradiction | exact IH].
Qed.

(** X1: looked up by name, the merged keyword mapping gives the caller's
    keyword value if the caller supplied one, and otherwise the declared
    default of the parameter of that name among those not taken by a
    positional argument; a name that is neither has no entry. *)
Theorem fn_kwargs_lookup
    (sig : list param) (args : list value) (kwargs : Dict.t value) (k : string) :
  NoDup (Dict.keys kwargs) -> NoDup (map p_name sig) ->
  Dict.get k (fn_kwargs (_traced sig args kwargs))
  = match Dict.get k kwargs with
    | Some v => Some v
    | None => default_of k (skipn (length args) sig)
    end.
Proof.
  intros Hk Hs. rewrite fn_kwargs_closed by assumption. rewrite get_app.
  destruct (Dict.get k kwargs) eqn:E; [reflexivity|].
  apply get_missing_defaults; [|exact E].
  rewrite <- (take_drop (length args) sig), map_app in Hs.
  now apply NoDup_app in Hs.
Qed.

Lemma fn_kwargs_lookup_witness :
  Dict.get "b" (fn_kwargs (_traced Scenario.h_sig [Scenario.a]
                             [("c", VNumber (NInt 5))]))
  = Some (VNumber (NInt 1)).
Proof.
  refine (fn_kwargs_lookup Scenario.h_sig [Scenario.a] [("c", VNumber (NInt 5))]
            "b" _ _).
  - apply (bool_decide_unpack _). vm_compute. exact I.
  - apply (bool_decide_unpack _). vm_compute. exact I.
Defined.

Lemma keys_combine (ks : list string) (vs : list value) :
  map fst (combine ks vs) = firstn (length vs) ks.
Proof.
  revert vs. induction ks as [|k ks IH]; intros [|v vs]; simpl;
    try reflexivity. now rewrite IH.
Qed.

Lemma values_combine (ks : list string) (vs : list value) :
  map snd (combine ks vs) = firstn (length ks) vs.
Proof.
  revert vs. induction ks as [|k ks IH]; intros [|v vs]; simpl;
    try reflexivity. now rewrite IH.
Qed.

(** X2: on a flat sequence of any length the adapter does not fail: the
    positional part is the first [nargs] entries, the keys are as many of
    the merged keys as there are entries left, so a short sequence drops
    the last keywords and a long one loses its extra entries; flattening
    the split gives the sequence back, cut to the canonical arity. *)
Theorem wrapped_any_length
    (sig : list param) (args : list value) (kwargs : Dict.t value)
    (flat : list value) :
  let c := _traced sig args kwargs in
  fst (wrapped c flat) = firstn (length args) flat
  /\ Dict.keys (snd (wrapped c flat))
     = firstn (length flat - length args) (Dict.keys (fn_kwargs c))
  /\ fst (wrapped c flat) ++ Dict.values (snd (wrapped c flat))
     = firstn (length (all_args c)) flat.
Proof.
  intros c. subst c. rewrite wrapped_closed. cbn [fst snd].
  set (keys := Dict.keys (fn_kwargs (_traced sig args kwargs))).
  assert (Hlen : length (all_args (_traced sig args kwargs))
                 = length args + length keys).
  { cbn [all_args _traced]. rewrite length_app. subst keys.
    unfold Dict.values, Dict.keys. now rewrite !length_map. }
  split; [reflexivity|]. split.
  - unfold Dict.keys at 1. now rewrite keys_combine, length_drop.
  - unfold Dict.values. rewrite values_combine, Hlen. apply take_take_drop.
Qed.

(** ** Canonicalizing twice *)

Lemma populate_defaults_extends (n : nat) (ps : list param) : forall i d,
  exists extra, populate_defaults n i ps d = d ++ extra.
Proof.
  induction ps as [|p ps IH]; intros i d; simpl.
  - exists []. now rewrite app_nil_r.
  - destruct (i <? n)%nat; [apply IH|].
    destruct (p_default p) as [v|]; [|apply IH].
    destruct (Dict.mem (p_name p) d) eqn:Hm; simpl; [apply IH|].
    destruct (IH (S i) (Dict.set (p_name p) v d)) as (extra & ->).
    apply mem_false_iff in Hm. rewrite set_absent by exact Hm.
    exists ((p_name p, v) :: extra). now rewrite <- app_assoc.
Qed.

Lemma mem_populate_defaults (n : nat) (ps : list param) i d (k : string) :
  Dict.mem k d = true -> Dict.mem k (populate_defaults n i ps d) = true.
Proof.
  intros H. destruct (populate_defaults_extends n ps i d) as (extra & ->).
  unfold Dict.mem, Dict.keys in *. rewrite map_app, existsb_app, H. reflexivity.
Qed.

Lemma mem_set_same {V} (k : string) (v : V) (d : Dict.t V) :
  Dict.mem k (Dict.set k v d) = true.
Proof.
  apply mem_true_iff. induction d as [|[k' v'] d IH]; simpl; [now left|].
  destruct (String.eqb_spec k k') as [->|_]; simpl; [now left | now right].
Qed.

Lemma populate_defaults_fixed (n : nat) (ps : list param) : forall i d,
  populate_defaults n i ps (populate_defaults n i ps d) = populate_defaults n i ps d.
Proof.
  induction ps as [|p ps IH]; intros i d; simpl; [reflexivity|].
  destruct (i <? n)%nat; [apply IH|].
  destruct (p_default p) as [v|]; [|apply IH].
  destruct (Dict.mem (p_name p) d) eqn:Hm; simpl.
  - rewrite mem_populate_defaults by exact Hm. simpl. apply IH.
  - rewrite mem_populate_defaults by apply mem_set_same. simpl. apply IH.
Qed.

(** X11: canonicalizing again with the merged keyword mapping as the
    keyword arguments changes nothing: the same mapping, in the same
    order, and the same canonical list come out, since every default that
    could be filled in is already a key. *)
Theorem _traced_idempotent
    (sig : list param) (args : list value) (kwargs : Dict.t value) :
  _traced sig args (fn_kwargs (_traced sig args kwargs)) = _traced sig args kwargs.
Proof.
  assert (E : fn_kwargs (_traced sig args (fn_kwargs (_traced sig args kwargs)))
              = fn_kwargs (_traced sig args kwargs)).
  { cbn [fn_kwargs _traced].
    rewrite (copy_kwargs_distinct (populate_defaults _ _ _ _))
      by apply (NoDup_keys_fn_kwargs sig args kwargs).
    apply populate_defaults_fixed. }
  unfold _traced in *. cbv zeta in *. cbn [fn_kwargs] in E |- *. now rewrite E.
Qed.

(** ** Registering the inputs *)

Section ToNv.
Variable getnvFuserDtype : string -> string.
Abbreviation reg := (registered getnvFuserDtype).
Abbreviation nv := (to_nv getnvFuserDtype).

Lemma with_inputs_app (l1 : list value) : forall h l2,
  with_inputs h (l1 ++ l2)
  = with_inputs h l1
    ++ with_inputs
         (h + length (omap (fun x => match x with VTensor t => Some t | _ => None end) l1))
         l2.
Proof.
  induction l1 as [|x l1 IH]; intros h l2; simpl.
  - now rewrite Nat.add_0_r.
  - destruct x; simpl; rewrite IH, ?Nat.add_succ_r; reflexivity.
Qed.

Abbreviation nv_result := (nv_result getnvFuserDtype).

Lemma nv_result_list (items : list value) :
  Forall nv_result items ->
  forall w, exists ys,
    map_py (tree_map nv) items w = (inr ys, reg w (flat_map tensors_of items))
    /\ map tree_structure ys = map tree_structure items
    /\ flat_map tree_leaves ys
       = with_inputs (next_handle w) (flat_map tree_leaves items).
Proof.
  induction 1 as [|x items Hx _ IH]; intros w; simpl.
  - exists []. now rewrite registered_nil.
  - rewrite bind_unfold. destruct (Hx w) as (y & -> & Sy & Ly).
    rewrite bind_unfold.
    destruct (IH (reg w (tensors_of x))) as (ys & -> & Sys & Lys).
    exists (y :: ys). simpl. rewrite registered_app, Sy, Sys, Ly, Lys.
    repeat split. now rewrite with_inputs_app.
Qed.

Lemma nv_result_items (items : list (string * value)) :
  Forall (fun kv => nv_result (snd kv)) items ->
  forall w, exists ys,
    map_py (fun kv => x ← tree_map nv (snd kv); mret (fst kv, x)) items w
    = (inr ys, reg w (flat_map (fun kv => tensors_of (snd kv)) items))
    /\ map (fun kv => (fst kv, tree_structure (snd kv))) ys
       = map (fun kv => (fst kv, tree_structure (snd kv))) items
    /\ flat_map (fun kv => tree_leaves (snd kv)) ys
       = with_inputs (next_handle w) (flat_map (fun kv => tree_leaves (snd kv)) items).
Proof.
  induction 1 as [|[k x] items Hx _ IH]; intros w; simpl in *.
  - exists []. now rewrite registered_nil.
  - rewrite !bind_unfold. destruct (Hx w) as (y & -> & Sy & Ly).
    simpl. rewrite bind_unfold.
    destruct (IH (reg w (tensors_of x))) as (ys & -> & Sys & Lys).
    exists ((k, y) :: ys). simpl. rewrite registered_app, Sy, Sys, Ly, Lys.
    repeat split. now rewrite with_inputs_app.
Qed.

(** X3: [tree_map(to_nv, v)] never raises; it registers the tensors of
    [v], keeps the nesting of [v] with its dict keys, replaces every tensor
    leaf by the handle defined for it, in order, and leaves every other
    leaf as it is. *)
Theorem to_nv_keeps_structure (v : value) (w : world) :
  exists v',
    tree_map nv v w = (inr v', reg w (tensors_of v))
    /\ tree_structure v' = tree_structure v
    /\ tree_leaves v' = with_inputs (next_handle w) (tree_leaves v).
Proof.
  revert w. change (nv_result v).
  induction v as [t|n|h|h|s|items IH|items IH|items IH] using value_nested_ind;
    intros w.
  - exists (VNvTensor (next_handle w)). repeat split.
    unfold registered. simpl.
    unfold fd.define_tensor, fd.add_input, fresh, emit, mbind, Py_bind, mret, Py_ret.
    simpl. now rewrite Nat.add_1_r, <- app_assoc.
  - exists (VNumber n). now rewrite registered_nil.
  - exists (VNvTensor h). now rewrite registered_nil.
  - exists (VNvScalar h). now rewrite registered_nil.
  - exists (VOther s). now rewrite registered_nil.
  - destruct (nv_result_list items IH w) as (ys & E & Sy & Ly).
    exists (VTuple ys). cbn [tree_map tree_structure tree_leaves].
    rewrite bind_unfold, E, Sy, Ly. unfold tensors_of. cbn [tree_leaves].
    now rewrite tensors_of_flat_map.
  - destruct (nv_result_list items IH w) as (ys & E & Sy & Ly).
    exists (VList ys). cbn [tree_map tree_structure tree_leaves].
    rewrite bind_unfold, E, Sy, Ly. unfold tensors_of. cbn [tree_leaves].
    now rewrite tensors_of_flat_map.
  - destruct (nv_result_items items IH w) as (ys & E & Sy & Ly).
    exists (VDict ys). cbn [tree_map tree_structure tree_leaves].
    rewrite bind_unfold, E, Sy, Ly. unfold tensors_of. cbn [tree_leaves].
    now rewrite tensors_of_flat_map_snd.
Qed.

End ToNv.

(** ** Lowering a node *)

Lemma constant_events_facts (args : list value) : forall h,
  forallb is_define_constant (constant_events h args) = true
  /\ length (constant_events h args) = count_numbers args.
Proof.
  unfold count_numbers. induction args as [|x args IH]; intros h; [now split|].
  destruct x; simpl; try apply IH.
  destruct (IH (S h)) as [F L]. split; [exact F | now rewrite L].
Qed.

Lemma with_constants_pointwise (args : list value) : forall h,
  Forall2 (fun x x' => if is_Number x then exists c, x' = VNvScalar c else x' = x)
          args (with_constants h args).
Proof.
  induction args as [|y args IH]; intros h; [constructor|].
  destruct y; simpl; constructor; simpl; eauto.
Qed.

(** X4: when the target has a lowering rule, [call_function] defines one
    constant for each number among the positional operands, also for a
    number that occurs twice, and calls the rule once; the rule receives as
    many operands as the node has, a constant's handle in the place of
    every number and every other operand unchanged at its position (a list
    of numbers stays a list of numbers), and the keyword arguments
    unchanged. *)
Theorem call_function_keeps_operands
    (name rule : string) (args : list value) (kwargs : Dict.t value) (w : world) :
  exists consts args',
    call_function (mkTarget name (Some rule)) args kwargs w
    = (inr (VNvTensor (next_handle w + count_numbers args)),
       {| next_handle := S (next_handle w + count_numbers args);
          trace := trace w ++ consts
                   ++ [EvLower (next_handle w + count_numbers args) rule args' kwargs] |})
    /\ forallb is_define_constant consts = true
    /\ length consts = count_numbers args
    /\ Forall2 (fun x x' => if is_Number x then exists c, x' = VNvScalar c else x' = x)
               args args'.
Proof.
  exists (constant_events (next_handle w) args), (with_constants (next_handle w) args).
  destruct (constant_events_facts args (next_handle w)) as [F L].
  repeat split; try assumption; [|apply with_constants_pointwise].
  now rewrite (call_function_lowers (mkTarget name (Some rule)) rule).
Qed.

(** X5: when the target has no [impl_nvfuser], the AttributeError of line
    48 comes after line 47: one constant has been defined for each number
    among the operands, and the rule of no other node has been called. *)
Theorem missing_rule_after_constants
    (name : string) (args : list value) (kwargs : Dict.t value) (w : world) :
  exists consts,
    call_function (mkTarget name None) args kwargs w
    = (inl (AttributeError name "impl_nvfuser"),
       {| next_handle := next_handle w + count_numbers args;
          trace := trace w ++ consts |})
    /\ forallb is_define_constant consts = true
    /\ length consts = count_numbers args.
Proof.
  exists (constant_events (next_handle w) args).
  destruct (constant_events_facts args (next_handle w)) as [F L].
  repeat split; try assumption.
  now rewrite call_function_missing.
Qed.

(** ** The buffers and the result of the nvfuser executor *)

Lemma filter_tensors_sublist (args : list value) (kwargs : Dict.t value) :
  List.filter is_Tensor args `sublist_of` map VTensor (call_tensors args kwargs).
Proof.
  unfold call_tensors. rewrite map_app. apply sublist_inserts_r.
  induction args as [|v args IH]; simpl; [constructor|].
  rewrite map_app.
  destruct v; simpl; try exact IH; try (now apply sublist_inserts_l).
  now apply sublist_skip.
Qed.

(** X6: in every nvfuser execution the trace is the creation of the
    fusion, the entry, the registration of the tensors of the call,
    lowering steps and outputs, and then either the exit alone or the
    backend's execute and the exit; the buffers of that execute are the
    top-level positional tensors, a subsequence of the registered tensors:
    no buffer is supplied that was not registered, and none out of order. *)
Theorem execute_buffers_are_registered
    dt fwd comp (gm : GraphModule) (args : list value) (kwargs : Dict.t value)
    (w : world) :
  exists steps tail,
    trace (snd (execute true dt fwd comp gm args "nvfuser" kwargs w))
    = trace w ++ [EvFusion; EvEnter]
      ++ input_events dt (next_handle w) (call_tensors args kwargs)
      ++ steps ++ tail
    /\ forallb (fun e => is_lowering_step e || is_add_output e) steps = true
    /\ (tail = [EvExit] \/ tail = [EvExecute (List.filter is_Tensor args); EvExit])
    /\ List.filter is_Tensor args `sublist_of` map VTensor (call_tensors args kwargs).
Proof.
  pose proof (execute_nvfuser_unfold dt fwd comp gm args kwargs w) as E.
  cbv zeta in E. rewrite E. clear E.
  match goal with |- context [define_fusion dt gm args kwargs ?w1] =>
    pose proof (define_fusion_trace dt gm args kwargs w1) as (rest & T & F);
    destruct (define_fusion dt gm args kwargs w1) as [[e|spec] w2]
  end; simpl in *.
  - exists rest, [EvExit]. rewrite T, <- !app_assoc.
    repeat split; [exact F | now left | apply filter_tensors_sublist].
  - exists rest, [EvExecute (List.filter is_Tensor args); EvExit].
    rewrite T, <- !app_assoc.
    repeat split; [exact F | now right | apply filter_tensors_sublist].
Qed.

Lemma unflatten_from_tuple (cs : list treespec) (ls : list value) :
  unflatten_from (TupleSpec cs) ls
  = match unflatten_list cs ls with
    | Some (xs, rest) => Some (VTuple xs, rest)
    | None => None
    end.
Proof. reflexivity. Qed.

Lemma unflatten_from_list (cs : list treespec) (ls : list value) :
  unflatten_from (ListSpec cs) ls
  = match unflatten_list cs ls with
    | Some (xs, rest) => Some (VList xs, rest)
    | None => None
    end.
Proof. reflexivity. Qed.

Lemma unflatten_from_dict (cs : list (string * treespec)) (ls : list value) :
  unflatten_from (DictSpec cs) ls
  = match unflatten_items cs ls with
    | Some (xs, rest) => Some (VDict xs, rest)
    | None => None
    end.
Proof. reflexivity. Qed.

Lemma rebuilds_leaf (v : value) :
  tree_structure v = LeafSpec -> tree_leaves v = [v] -> rebuilds v.
Proof.
  intros Hs Hl ls rest Hlen Ht. rewrite Hs, Hl in *.
  destruct ls as [|x [|y ls]]; try discriminate.
  exists x. simpl in *. destruct x; try discriminate. now repeat split.
Qed.

Lemma rebuilds_list (items : list value) :
  Forall rebuilds items ->
  forall ls rest,
    length ls = length (flat_map tree_leaves items) -> forallb is_Tensor ls = true ->
    exists xs,
      unflatten_list (map tree_structure items) (ls ++ rest) = Some (xs, rest)
      /\ map tree_structure xs = map tree_structure items
      /\ flat_map tree_leaves xs = ls.
Proof.
  induction 1 as [|x items Hx _ IH]; intros ls rest Hlen Ht; simpl in *.
  - destruct ls; [|discriminate]. now exists [].
  - rewrite length_app in Hlen.
    rewrite <- (take_drop (length (tree_leaves x)) ls) in Ht |- *.
    rewrite forallb_app in Ht. apply andb_prop in Ht. destruct Ht as [Ht1 Ht2].
    rewrite <- app_assoc.
    destruct (Hx (take (length (tree_leaves x)) ls)
                 (drop (length (tree_leaves x)) ls ++ rest))
      as (x' & -> & Sx & Lx); [rewrite length_take; lia | exact Ht1 |].
    destruct (IH (drop (length (tree_leaves x)) ls) rest)
      as (xs & -> & Sxs & Lxs); [rewrite length_drop; lia | exact Ht2 |].
    exists (x' :: xs). simpl. now rewrite Sx, Sxs, Lx, Lxs.
Qed.

Lemma rebuilds_items (items : list (string * value)) :
  Forall (fun kv => rebuilds (snd kv)) items ->
  forall ls rest,
    length ls = length (flat_map (fun kv => tree_leaves (snd kv)) items) ->
    forallb is_Tensor ls = true ->
    exists xs,
      unflatten_items (map (fun kv => (fst kv, tree_structure (snd kv))) items)
                      (ls ++ rest) = Some (xs, rest)
      /\ map (fun kv => (fst kv, tree_structure (snd kv))) xs
         = map (fun kv => (fst kv, tree_structure (snd kv))) items
      /\ flat_map (fun kv => tree_leaves (snd kv)) xs = ls.
Proof.
  induction 1 as [|[k x] items Hx _ IH]; intros ls rest Hlen Ht; simpl in *.
  - destruct ls; [|discriminate]. now exists [].
  - rewrite length_app in Hlen.
    rewrite <- (take_drop (length (tree_leaves x)) ls) in Ht |- *.
    rewrite forallb_app in Ht. apply andb_prop in Ht. destruct Ht as [Ht1 Ht2].
    rewrite <- app_assoc.
    destruct (Hx (take (length (tree_leaves x)) ls)
                 (drop (length (tree_leaves x)) ls ++ rest))
      as (x' & -> & Sx & Lx); [rewrite length_take; lia | exact Ht1 |].
    destruct (IH (drop (length (tree_leaves x)) ls) rest)
      as (xs & -> & Sxs & Lxs); [rewrite length_drop; lia | exact Ht2 |].
    exists ((k, x') :: xs). simpl. now rewrite Sx, Sxs, Lx, Lxs.
Qed.

Lemma rebuilds_all (v : value) : rebuilds v.
Proof.
  induction v as [t|n|h|h|s|items IH|items IH|items IH] using value_nested_ind;
    try (now apply rebuilds_leaf); intros ls rest Hlen Ht.
  - destruct (rebuilds_list items IH ls rest Hlen Ht) as (xs & E & Sx & Lx).
    exists (VTuple xs). cbn [tree_structure tree_leaves].
    now rewrite unflatten_from_tuple, E, Sx, Lx.
  - destruct (rebuilds_list items IH ls rest Hlen Ht) as (xs & E & Sx & Lx).
    exists (VList xs). cbn [tree_structure tree_leaves].
    now rewrite unflatten_from_list, E, Sx, Lx.
  - destruct (rebuilds_items items IH ls rest Hlen Ht) as (xs & E & Sx & Lx).
    exists (VDict xs). cbn [tree_structure tree_leaves].
    now rewrite unflatten_from_dict, E, Sx, Lx.
Qed.

Lemma for_each_add_output_accepts (l : list value) : forall w,
  forallb fd.is_tensor_leaf l = true ->
  for_each fd.add_output l w
  = (inr tt, {| next_handle := next_handle w;
                trace := trace w ++ map EvAddOutput l |}).
Proof.
  induction l as [|x l IH]; intros [h tr] Hl; simpl in *.
  - now rewrite app_nil_r.
  - apply andb_prop in Hl. destruct Hl as [Hx Hl].
    rewrite bind_unfold. unfold fd.add_output at 1. rewrite Hx. simpl.
    rewrite (IH _ Hl). simpl. now rewrite <- app_assoc.
Qed.

(** X7: when the graph is lowered to [out], every leaf of [out] is a
    tensor, and the compiled program returns one tensor for each of them,
    the nvfuser execution returns a value with the nesting of [out] and
    the returned tensors as its leaves, in order; the outputs are added in
    the order of the leaves, the backend's execute is called once after
    them, and the scope is left last. *)
Theorem nvfuser_result_has_output_structure
    dt fwd comp (gm : GraphModule) (args : list value) (kwargs : Dict.t value)
    (w w2 : world) (out : value) (outs : list value) :
  lower_graph dt gm args kwargs
    {| next_handle := next_handle w; trace := trace w ++ [EvFusion; EvEnter] |}
  = (inr out, w2) ->
  forallb fd.is_tensor_leaf (tree_leaves out) = true ->
  comp (trace w2 ++ map EvAddOutput (tree_leaves out)) (List.filter is_Tensor args)
  = inr outs ->
  length outs = length (tree_leaves out) ->
  forallb is_Tensor outs = true ->
  exists v,
    execute true dt fwd comp gm args "nvfuser" kwargs w
    = (inr v,
       {| next_handle := next_handle w2;
          trace := trace w2 ++ map EvAddOutput (tree_leaves out)
                   ++ [EvExecute (List.filter is_Tensor args); EvExit] |})
    /\ tree_structure v = tree_structure out
    /\ tree_leaves v = outs.
Proof.
  intros Hlow Hleaves Hcomp Hlen Htens.
  destruct (rebuilds_all out outs [] Hlen Htens) as (v & Ev & Sv & Lv).
  rewrite app_nil_r in Ev. exists v. split; [|now split].
  rewrite execute_nvfuser_unfold. cbv zeta.
  unfold define_fusion. rewrite bind_unfold, Hlow. unfold tree_flatten.
  rewrite bind_unfold, for_each_add_output_accepts by exact Hleaves.
  simpl. rewrite Hcomp. unfold tree_unflatten. rewrite Ev.
  now rewrite <- app_assoc.
Qed.

Lemma nvfuser_result_has_output_structure_witness :
  exists v,
    execute true Graphs.nvfuser_dtype Graphs.no_forward Graphs.one_buffer_each
            MoreGraphs.nested_output [Scenario.a; Scenario.two] "nvfuser" []
            Graphs.start
    = (inr v,
       {| next_handle := 3;
          trace := [EvFusion; EvEnter;
                    EvDefineTensor 0 [2%Z; 3%Z] [3%Z; 1%Z] "DataType.Float";
                    EvAddInput (VNvTensor 0);
                    EvDefineConstant 1
                      (NFloat (S754_finite false 4503599627370496 (-51)));
                    EvLower 2 "fd.Ops.mul" [VNvTensor 0; VNvScalar 1] []]
                   ++ map EvAddOutput [VNvTensor 2; VNvTensor 0]
                   ++ [EvExecute [Scenario.a]; EvExit] |})
    /\ tree_structure v = TupleSpec [LeafSpec; ListSpec [LeafSpec]]
    /\ tree_leaves v
       = [VTensor (mkTensor [2%Z; 3%Z] [3%Z; 1%Z] "torch.float32" 9);
          VTensor (mkTensor [2%Z; 3%Z] [3%Z; 1%Z] "torch.float32" 9)].
Proof.
  apply (nvfuser_result_has_output_structure Graphs.nvfuser_dtype Graphs.no_forward
           Graphs.one_buffer_each MoreGraphs.nested_output
           [Scenario.a; Scenario.two] [] Graphs.start
           {| next_handle := 3;
              trace := [EvFusion; EvEnter;
                        EvDefineTensor 0 [2%Z; 3%Z] [3%Z; 1%Z] "DataType.Float";
                        EvAddInput (VNvTensor 0);
                        EvDefineConstant 1
                          (NFloat (S754_finite false 4503599627370496 (-51)));
                        EvLower 2 "fd.Ops.mul" [VNvTensor 0; VNvScalar 1] []] |}
           (VTuple [VNvTensor 2; VList [VNvTensor 0]])
           [VTensor (mkTensor [2%Z; 3%Z] [3%Z; 1%Z] "torch.float32" 9);
            VTensor (mkTensor [2%Z; 3%Z] [3%Z; 1%Z] "torch.float32" 9)]).
  - vm_compute. reflexivity.
  - reflexivity.
  - reflexivity.
  - reflexivity.
  - reflexivity.
Defined.

(** ** The traced wrapper *)

Section MakeTracedFacts.
Variable cuda : bool.
Variable dt : string -> string.
Variable fwd : GraphModule -> list value -> Dict.t value -> exn + value.
Variable comp : list event -> list value -> exn + list value.
Variable make_fx :
  (list value -> list value * Dict.t value) -> list value -> exn + GraphModule.

(** X8: the function is traced before the executor is looked at: when the
    tracing raises, the wrapper raises that exception for every executor
    name, valid or not, and nothing has been executed; an unknown executor
    name is reported, by the ValueError of line 81, only after the tracing
    has succeeded. *)
Theorem make_traced_traces_first
    (sig : list param) (args : list value) (executor : string)
    (kwargs : Dict.t value) (w : world) :
  executor <> "aten" -> executor <> "nvfuser" ->
  let c := _traced sig args kwargs in
  make_traced cuda dt fwd comp make_fx sig args executor kwargs w
  = (match make_fx (wrapped c) (all_args c) with
     | inl e => inl e
     | inr _ =>
         inl (ValueError ("Received unexpected value for 'executor': " ++ executor
                            ++ ". Allowed values are: aten, nvfuser.")%string)
     end, w)
  /\ forall valid : string,
       match make_fx (wrapped c) (all_args c) with
       | inl e =>
           make_traced cuda dt fwd comp make_fx sig args valid kwargs w = (inl e, w)
       | inr _ => True
       end.
Proof.
  intros Ha Hn c. split.
  - unfold make_traced. fold c. rewrite bind_unfold. unfold lift.
    destruct (make_fx (wrapped c) (all_args c)) as [e|gm]; [reflexivity|].
    unfold execute.
    destruct (String.eqb_spec executor "aten") as [E|_]; [contradiction|].
    destruct (String.eqb_spec executor "nvfuser") as [E|_]; [contradiction|].
    reflexivity.
  - intros valid. unfold make_traced. fold c. rewrite bind_unfold. unfold lift.
    now destruct (make_fx (wrapped c) (all_args c)).
Qed.

(** X9: with the aten executor and a successful tracing, the graph's
    forward is called once, with the whole canonical list as positional
    arguments and no keyword argument, whatever the caller passed by
    keyword; its result or exception is the wrapper's, and the fusion
    backend is not touched, with or without CUDA. *)
Theorem make_traced_aten_forwards_all_args
    (sig : list param) (args : list value) (kwargs : Dict.t value)
    (gm : GraphModule) (w : world) :
  let c := _traced sig args kwargs in
  make_fx (wrapped c) (all_args c) = inr gm ->
  make_traced cuda dt fwd comp make_fx sig args "aten" kwargs w
  = (fwd gm (args ++ Dict.values (fn_kwargs c)) [],
     {| next_handle := next_handle w;
        trace := trace w ++ [EvForward (args ++ Dict.values (fn_kwargs c)) []] |}).
Proof.
  intros c Hgm. unfold make_traced. fold c. rewrite bind_unfold. unfold lift.
  now rewrite Hgm.
Qed.

(** X10: through the wrapper the executor gets the whole canonical list
    positionally, so with the nvfuser executor and a canonical list of
    leaves every tensor of the call, passed by position or by keyword or
    taken from a default, is registered as an input and, when the
    definition completes, supplied as a buffer, in the same order; when the
    definition raises, nothing is supplied. *)
Theorem make_traced_supplies_every_registered_tensor
    (sig : list param) (args : list value) (kwargs : Dict.t value)
    (gm : GraphModule) (w : world) :
  let c := _traced sig args kwargs in
  let ts := flat_map tensors_of (all_args c) in
  make_fx (wrapped c) (all_args c) = inr gm ->
  Forall (fun v => tree_leaves v = [v]) (all_args c) ->
  exists steps tail,
    trace (snd (make_traced true dt fwd comp make_fx sig args "nvfuser" kwargs w))
    = trace w ++ [EvFusion; EvEnter] ++ input_events dt (next_handle w) ts
      ++ steps ++ tail
    /\ forallb (fun e => is_lowering_step e || is_add_output e) steps = true
    /\ match fst (define_fusion dt gm (all_args c) []
                    {| next_handle := next_handle w;
                       trace := trace w ++ [EvFusion; EvEnter] |}) with
       | inr _ => tail = [EvExecute (map VTensor ts); EvExit]
       | inl _ => tail = [EvExit]
       end.
Proof.
  intros c ts Hgm Hleaves. unfold make_traced. fold c.
  rewrite bind_unfold. unfold lift. rewrite Hgm.
  assert (Ets : call_tensors (all_args c) [] = ts).
  { unfold call_tensors. simpl. now rewrite app_nil_r. }
  assert (Ebuf : List.filter is_Tensor (all_args c) = map VTensor ts).
  { rewrite <- Ets. symmetry. apply flat_positional_buffers; [exact Hleaves|].
    constructor. }
  pose proof (execute_nvfuser_unfold dt fwd comp gm (all_args c) [] w) as E.
  cbv zeta in E. rewrite E. clear E.
  match goal with |- context [define_fusion dt gm (all_args c) [] ?w1] =>
    pose proof (define_fusion_trace dt gm (all_args c) [] w1) as (rest & T & F);
    rewrite Ets in T;
    destruct (define_fusion dt gm (all_args c) [] w1) as [[e|spec] w2]
  end; cbn [fst snd trace next_handle] in T |- *.
  - exists rest, [EvExit]. rewrite T, <- !app_assoc.
    repeat split; exact F.
  - exists rest, [EvExecute (map VTensor ts); EvExit].
    rewrite T, Ebuf, <- !app_assoc. repeat split; exact F.
Qed.

End MakeTracedFacts.

Lemma make_traced_traces_first_witness :
  make_traced true Graphs.nvfuser_dtype Graphs.no_forward Graphs.one_buffer_each
              Tracers.fails Scenario.g_sig [Scenario.a] "cuda" [] Graphs.start
  = (inl (RuntimeError "no reference for this operation"), Graphs.start).
Proof.
  refine (proj1 (make_traced_traces_first true Graphs.nvfuser_dtype
                   Graphs.no_forward Graphs.one_buffer_each Tracers.fails
                   Scenario.g_sig [Scenario.a] "cuda" [] Graphs.start _ _));
    discriminate.
Defined.

Lemma make_traced_aten_forwards_all_args_witness :
  make_traced false Graphs.nvfuser_dtype Graphs.no_forward Graphs.one_buffer_each
              Tracers.records_g Tracers.f_sig [Scenario.a] "aten"
              [("b", Scenario.b)] Graphs.start
  = (Graphs.no_forward Graphs.g [Scenario.a; Scenario.b] [],
     {| next_handle := 0;
        trace := [] ++ [EvForward [Scenario.a; Scenario.b] []] |}).
Proof.
  apply (make_traced_aten_forwards_all_args false Graphs.nvfuser_dtype
           Graphs.no_forward Graphs.one_buffer_each Tracers.records_g
           Tracers.f_sig [Scenario.a] [("b", Scenario.b)] Graphs.g Graphs.start).
  reflexivity.
Defined.

Lemma make_traced_supplies_every_registered_tensor_witness :
  exists steps tail,
    trace (snd (make_traced true Graphs.nvfuser_dtype Graphs.no_forward
                  Graphs.one_buffer_each Tracers.records_g Tracers.f_sig
                  [Scenario.a] "nvfuser" [("b", Scenario.b)] Graphs.start))
    = [] ++ [EvFusion; EvEnter]
      ++ [EvDefineTensor 0 [2%Z; 3%Z] [3%Z; 1%Z] "DataType.Float";
          EvAddInput (VNvTensor 0);
          EvDefineTensor 1 [2%Z; 3%Z] [3%Z; 1%Z] "DataType.Float";
          EvAddInput (VNvTensor 1)]
      ++ steps ++ tail
    /\ forallb (fun e => is_lowering_step e || is_add_output e) steps = true
    /\ tail = [EvExecute [Scenario.a; Scenario.b]; EvExit].
Proof.
  assert (Hleaves : Forall (fun v => tree_leaves v = [v]) [Scenario.a; Scenario.b])
    by (repeat constructor).
  destruct (make_traced_supplies_every_registered_tensor Graphs.nvfuser_dtype
              Graphs.no_forward Graphs.one_buffer_each Tracers.records_g
              Tracers.f_sig [Scenario.a] [("b", Scenario.b)] Graphs.g Graphs.start
              eq_refl Hleaves) as (steps & tail & T & F & M).
  exists steps, tail. split; [exact T|]. split; [exact F|].
  vm_compute in M. exact M.
Defined.

(** ** Scalar arguments on the nvfuser path *)

(** C4, as stated, fails: the correction 1 of [var(a, correction=c)] is a
    concrete scalar argument whose first use is as a keyword argument of a
    node; line 47 translates positional operands only, so the lowering
    rule receives the number itself, the execution succeeds, and no
    constant has been defined. *)
Lemma scalar_keyword_not_translated :
  execute true Graphs.nvfuser_dtype Graphs.no_forward Graphs.one_buffer_each
          MoreGraphs.var_correction [Scenario.a; VNumber (NInt 1)] "nvfuser" []
          Graphs.start
  = (inr (VTensor (mkTensor [2%Z; 3%Z] [3%Z; 1%Z] "torch.float32" 9)),
     {| next_handle := 2;
        trace := [EvFusion; EvEnter;
                  EvDefineTensor 0 [2%Z; 3%Z] [3%Z; 1%Z] "DataType.Float";
                  EvAddInput (VNvTensor 0);
                  EvLower 1 "fd.Ops.var" [VNvTensor 0]
                    [("correction", VNumber (NInt 1))];
                  EvAddOutput (VNvTensor 1);
                  EvExecute [Scenario.a];
                  EvExit] |})
  /\ forallb (fun e => negb (is_define_constant e))
       (trace (snd (execute true Graphs.nvfuser_dtype Graphs.no_forward
                      Graphs.one_buffer_each MoreGraphs.var_correction
                      [Scenario.a; VNumber (NInt 1)] "nvfuser" [] Graphs.start)))
     = true.
Proof. split; vm_compute; reflexivity. Qed.

Lemma emits_trace {A} Q (m : Py A) (w : world) :
  emits Q m -> exists evs, trace (snd (m w)) = trace w ++ evs.
Proof. intros H. destruct (H w) as (evs & E & _). now exists evs. Qed.

Lemma all_or_error_nth {A B} (f : A -> exn + B) (l : list A) : forall vs i a,
  all_or_error (map f l) = inr vs -> nth_error l i = Some a ->
  exists v, f a = inr v /\ nth_error vs i = Some v.
Proof.
  induction l as [|y l IH]; intros vs i a E Hi; [now destruct i|].
  simpl in E. destruct (f y) as [e|v] eqn:Ey; [discriminate|].
  destruct (all_or_error (map f l)) as [e|vs'] eqn:El; [discriminate|].
  inversion E; subst. destruct i as [|i]; simpl in Hi.
  - inversion Hi; subst. now exists v.
  - now apply (IH vs' i a).
Qed.

Lemma map_py_to_nv_numbers dt (args : list value) : forall w nv w' j x,
  map_py (tree_map (to_nv dt)) args w = (inr nv, w') ->
  nth_error args j = Some (VNumber x) ->
  nth_error nv j = Some (VNumber x).
Proof.
  induction args as [|a args IH]; intros w nv w' j x E Hj; [now destruct j|].
  simpl in E. rewrite bind_unfold in E.
  destruct (tree_map_to_nv_registers dt a w) as (a' & Ea).
  rewrite Ea, bind_unfold in E.
  destruct (map_py (tree_map (to_nv dt)) args _) as [[e|ys] w2] eqn:Ey;
    [discriminate|].
  inversion E; subst. destruct j as [|j]; simpl in Hj |- *.
  - inversion Hj; subst. simpl in Ea. now inversion Ea.
  - now apply (IH _ _ _ _ _ Ey).
Qed.

Lemma lower_graph_numbers dt gm (args : list value) w :
  exists nv_args,
    length nv_args = length args
    /\ (forall j x, nth_error args j = Some (VNumber x) ->
          nth_error nv_args j = Some (VNumber x))
    /\ lower_graph dt gm args [] w
       = run gm nv_args [] (registered dt w (call_tensors args [])).
Proof.
  destruct (map_py_registers dt (tree_map (to_nv dt)) tensors_of args)
    with (w := w) as (nv_args & E1 & L1).
  { apply Forall_forall. intros x _. apply tree_map_to_nv_registers. }
  exists nv_args. split; [exact L1|]. split.
  - intros j x Hj. now apply (map_py_to_nv_numbers dt args _ _ _ _ _ E1).
  - unfold lower_graph. rewrite bind_unfold, E1. simpl.
    unfold call_tensors. simpl. now rewrite app_nil_r.
Qed.

Lemma bind_placeholders_other (names : list string) :
  forall vals (env env' : environment) (p : string),
  bind_placeholders names vals env = inr env' -> ~ In p names ->
  env' !! p = env !! p.
Proof.
  induction names as [|n names IH]; intros vals env env' p E Hp; simpl in E.
  - now inversion E.
  - destruct vals as [|a vals]; [discriminate|].
    rewrite (IH _ _ _ p E) by (intros ?; apply Hp; now right).
    apply lookup_insert_ne. intros ->. apply Hp. now left.
Qed.

Lemma bind_placeholders_lookup (names : list string) :
  forall vals (env env' : environment) j (p : string) (v : value),
  NoDup names -> nth_error names j = Some p -> nth_error vals j = Some v ->
  bind_placeholders names vals env = inr env' ->
  env' !! p = Some v.
Proof.
  induction names as [|n names IH]; intros vals env env' j p v Hnd Hp Hv E;
    [now destruct j|].
  apply NoDup_cons in Hnd. destruct Hnd as [Hn Hnd]. rewrite list_elem_of_In in Hn.
  simpl in E. destruct vals as [|a vals]; [discriminate|].
  destruct j as [|j]; simpl in Hp, Hv.
  - inversion Hp; inversion Hv; subst.
    rewrite (bind_placeholders_other _ _ _ _ p E Hn). apply lookup_insert_eq.
  - now apply (IH vals (<[n:=a]> env) env' j p v).
Qed.

Lemma run_node_stores (env env' : environment) (n : Node) (w w' : world) :
  run_node env n w = (inr env', w') -> exists r, env' = <[n_name n := r]> env.
Proof.
  unfold run_node, lift. rewrite bind_unfold.
  destruct (all_or_error (map (fetch env) (n_args n))) as [e|args]; [discriminate|].
  rewrite bind_unfold.
  destruct (all_or_error _) as [e|kwargs]; [discriminate|].
  rewrite bind_unfold.
  destruct (call_function (n_target n) args kwargs w) as [[e|r] w1]; [discriminate|].
  intros E. inversion E. now exists r.
Qed.

Lemma run_nodes_other (ns : list Node) :
  forall (env env' : environment) (w w' : world) (p : string),
  run_nodes env ns w = (inr env', w') -> ~ In p (map n_name ns) ->
  env' !! p = env !! p.
Proof.
  induction ns as [|n ns IH]; intros env env' w w' p E Hp; simpl in E.
  - now inversion E.
  - rewrite bind_unfold in E.
    destruct (run_node env n w) as [[e|env1] w1] eqn:En; [discriminate|].
    destruct (run_node_stores _ _ _ _ _ En) as (r & ->).
    rewrite (IH _ _ _ _ p E) by (intros ?; apply Hp; now right).
    apply lookup_insert_ne. intros Heq. apply Hp. now left.
Qed.

Lemma number_operand_constant (x : number) (before after : list value) : forall h,
  In (EvDefineConstant (h + count_numbers before) x)
     (constant_events h (before ++ VNumber x :: after))
  /\ nth_error (with_constants h (before ++ VNumber x :: after)) (length before)
     = Some (VNvScalar (h + count_numbers before)).
Proof.
  unfold count_numbers.
  induction before as [|y before IH]; intros h; simpl.
  - rewrite Nat.add_0_r. split; [now left | reflexivity].
  - destruct y; simpl; try apply IH.
    rewrite Nat.add_succ_r. destruct (IH (S h)) as [H1 H2].
    split; [now right | exact H2].
Qed.

(** C4 (amended): on the nvfuser path, a concrete argument that is a
    scalar number and that a node of the graph takes as a positional
    operand is translated to a constant of the fusion when that node is
    lowered, not before, and the lowering rule receives the constant's
    handle in its place (a scalar that a node takes by keyword or inside a
    list is handed on as it is); no scalar is ever registered as an input:
    the inputs registered are the tensors of the call, and [to_nv] hands a
    number on unchanged.  The default 2.0 of [g(a, c=2.0)] is recorded as a
    constant, not as an input. *)
Theorem scalar_operands_become_constants
    dt fwd comp (gm : GraphModule) (args : list value)
    (pre post : list Node) (n : Node) (rule p : string) (x : number)
    (i j : nat) (w : world) :
  nodes gm = pre ++ n :: post ->
  NoDup (placeholders gm) ->
  length (placeholders gm) <= length args ->
  well_scoped (placeholders gm) (pre ++ [n]) ->
  Forall has_rule pre ->
  impl_nvfuser (n_target n) = Some rule ->
  nth_error (placeholders gm) j = Some p ->
  nth_error args j = Some (VNumber x) ->
  ~ In p (map n_name pre) ->
  nth_error (n_args n) i = Some (ARef p) ->
  (exists front consts back h hl operands kws,
      trace (snd (execute true dt fwd comp gm args "nvfuser" [] w))
      = trace w ++ [EvFusion; EvEnter]
        ++ input_events dt (next_handle w) (call_tensors args [])
        ++ front ++ consts ++ [EvLower hl rule operands kws] ++ back
      /\ forallb is_lowering_step front = true
      /\ forallb is_define_constant consts = true
      /\ In (EvDefineConstant h x) consts
      /\ nth_error operands i = Some (VNvScalar h)
      /\ forallb (fun e => negb (is_add_input e)) back = true)
  /\ (forall gm' args' kwargs' w', exists rest,
        trace (snd (execute true dt fwd comp gm' args' "nvfuser" kwargs' w'))
        = trace w' ++ [EvFusion; EvEnter]
          ++ input_events dt (next_handle w') (call_tensors args' kwargs') ++ rest
        /\ forallb (fun e => negb (is_add_input e)) rest = true)
  /\ (forall y w', to_nv dt (VNumber y) w' = (inr (VNumber y), w'))
  /\ trace (snd (execute true dt fwd comp Graphs.g [Scenario.a; Scenario.two]
                   "nvfuser" [] Graphs.start))
     = [EvFusion; EvEnter;
        EvDefineTensor 0 [2%Z; 3%Z] [3%Z; 1%Z] (dt "torch.float32");
        EvAddInput (VNvTensor 0);
        EvDefineConstant 1 (NFloat (S754_finite false 4503599627370496 (-51)));
        EvLower 2 "fd.Ops.mul" [VNvTensor 0; VNvScalar 1] [];
        EvAddOutput (VNvTensor 2);
        EvExecute [Scenario.a];
        EvExit].
Proof.
  intros Hnodes Hnd Hlen Hws Hrules Hrule Hp Hx Hfresh Hi.
  destruct (scalars_become_constants_not_inputs dt fwd comp) as (C1 & C2 & _ & C4).
  split; [|split; [exact C1 | split; [exact C2 | exact C4]]].
  rewrite execute_nvfuser_unfold. cbv zeta.
  set (w1 := {| next_handle := next_handle w;
                trace := trace w ++ [EvFusion; EvEnter] |}).
  destruct (lower_graph_numbers dt gm args w1) as (nv & Lnv & Hnv & Elow).
  set (wreg := registered dt w1 (call_tensors args [])) in *.
  destruct (bind_placeholders_ok (placeholders gm) nv ∅) as (env & Eb & Hb); [lia|].
  apply well_scoped_app in Hws. destruct Hws as [Hpre [Hn _]].
  destruct (run_nodes_ok pre (placeholders gm) env wreg Hpre Hb Hrules)
    as (env1 & w3 & Epre & Hk).
  destruct (emits_run_nodes pre env wreg) as (front & Tfront & Ffront).
  rewrite Epre in Tfront. simpl in Tfront.
  assert (Hlook : env1 !! p = Some (VNumber x)).
  { rewrite (run_nodes_other pre env env1 wreg w3 p Epre Hfresh).
    apply (bind_placeholders_lookup (placeholders gm) nv ∅ env j p); auto. }
  destruct (fetch_node_scoped env1 n) as (nargs & nkwargs & E1 & E2);
    [intros r Hin; apply Hk, Hn, Hin|].
  destruct (all_or_error_nth (fetch env1) (n_args n) nargs i (ARef p) E1 Hi)
    as (v & Ev & Hv).
  simpl in Ev. rewrite Hlook in Ev. inversion Ev; subst v. clear Ev.
  apply nth_error_split in Hv. destruct Hv as (before & after & -> & <-).
  destruct (number_operand_constant x before after (next_handle w3)) as [Hin Hnth].
  set (operands := with_constants (next_handle w3) (before ++ VNumber x :: after)) in *.
  set (consts := constant_events (next_handle w3) (before ++ VNumber x :: after)) in *.
  set (hl := next_handle w3 + count_numbers (before ++ VNumber x :: after)).
  set (w4 := {| next_handle := S hl;
                trace := trace w3 ++ consts ++ [EvLower hl rule operands nkwargs] |}).
  assert (Enode : run_node env1 n w3
                  = (inr (<[n_name n := VNvTensor hl]> env1), w4)).
  { unfold run_node, lift. rewrite bind_unfold, E1, bind_unfold, E2, bind_unfold.
    now rewrite (call_function_lowers _ rule) by exact Hrule. }
  set (env2 := <[n_name n := VNvTensor hl]> env1) in *.
  set (K := (out ← (env' ← run_nodes env2 post; lift (fetch env' (output gm)));
             _ ← for_each fd.add_output (tree_leaves out);
             mret (tree_structure out)) : Py treespec).
  assert (EK : define_fusion dt gm args [] w1 = K w4).
  { unfold define_fusion. rewrite bind_unfold, Elow. unfold run.
    rewrite !bind_unfold. unfold lift at 1. rewrite Eb, Hnodes, bind_unfold.
    rewrite run_nodes_app, Epre. simpl run_nodes.
    rewrite bind_unfold, Enode. subst K. rewrite !bind_unfold. reflexivity. }
  assert (HK : emits (fun e => is_lowering_step e || is_add_output e) K).
  { subst K. apply emits_bind.
    - apply emits_bind.
      + eapply emits_mono; [|apply emits_run_nodes]. intros e ->. reflexivity.
      + intros ?. apply emits_lift.
    - intros out. apply emits_bind; [|intros ?; apply emits_ret].
      eapply emits_mono; [|apply emits_for_each, emits_add_output].
      intros e ->. apply orb_true_r. }
  destruct (HK w4) as (evs & Tevs & Fevs).
  rewrite EK.
  assert (Hno : forall tl, forallb (fun e => negb (is_add_input e)) tl = true ->
                forallb (fun e => negb (is_add_input e)) (evs ++ tl) = true).
  { intros tl Htl. rewrite forallb_app, Htl, andb_true_r.
    rewrite forallb_forall in Fevs |- *. intros e He. specialize (Fevs e He).
    destruct e; simpl in *; congruence. }
  assert (Hc : forallb is_define_constant consts = true)
    by apply constant_events_facts.
  assert (Tw4 : trace w4
                = trace w ++ [EvFusion; EvEnter]
                  ++ input_events dt (next_handle w) (call_tensors args [])
                  ++ front ++ consts ++ [EvLower hl rule operands nkwargs]).
  { subst w4 wreg w1. simpl in *. rewrite Tfront. now rewrite <- !app_assoc. }
  rewrite Tw4 in Tevs. clear Tw4.
  destruct (K w4) as [[e|spec] w2]; cbn [fst snd trace next_handle] in Tevs |- *.
  - exists front, consts, (evs ++ [EvExit]), (next_handle w3 + count_numbers before),
      hl, operands, nkwargs.
    rewrite Tevs, <- !app_assoc.
    repeat split; try assumption. now apply Hno.
  - exists front, consts,
      (evs ++ [EvExecute (List.filter is_Tensor args); EvExit]),
      (next_handle w3 + count_numbers before), hl, operands, nkwargs.
    rewrite Tevs, <- !app_assoc.
    repeat split; try assumption. now apply Hno.
Qed.

Lemma scalar_operands_become_constants_witness :
  exists front consts back h hl operands kws,
    trace (snd (execute true Graphs.nvfuser_dtype Graphs.no_forward
                  Graphs.one_buffer_each Graphs.g [Scenario.a; Scenario.two]
                  "nvfuser" [] Graphs.start))
    = [] ++ [EvFusion; EvEnter]
      ++ input_events Graphs.nvfuser_dtype 0
           (call_tensors [Scenario.a; Scenario.two] [])
      ++ front ++ consts ++ [EvLower hl "fd.Ops.mul" operands kws] ++ back
    /\ forallb is_lowering_step front = true
    /\ forallb is_define_constant consts = true
    /\ In (EvDefineConstant h (NFloat (S754_finite false 4503599627370496 (-51))))
          consts
    /\ nth_error operands 1 = Some (VNvScalar h)
    /\ forallb (fun e => negb (is_add_input e)) back = true.
Proof.
  refine (proj1 (scalar_operands_become_constants Graphs.nvfuser_dtype
                   Graphs.no_forward Graphs.one_buffer_each Graphs.g
                   [Scenario.a; Scenario.two] []  []
                   (mkNode "mul" Graphs.mul [ARef "a_1"; ARef "c_1"] [])
                   "fd.Ops.mul" "c_1"
                   (NFloat (S754_finite false 4503599627370496 (-51)))
                   1 1 Graphs.start _ _ _ _ _ _ _ _ _ _)).
  - reflexivity.
  - apply (bool_decide_unpack _). vm_compute. exact I.
  - simpl. lia.
  - simpl. intuition.
  - constructor.
  - reflexivity.
  - reflexivity.
  - reflexivity.
  - simpl. tauto.
  - reflexivity.
Defined.
